(** * Newsroom Photo Stylizer: the layered composition of [src/App.js]

    A shallow embedding of the [App] component's state, of its [draw]
    routine and of the image-loading handlers, followed by the properties
    of the layer geometry and of the compositor.

    Numbers.  Every JavaScript Number of the component is taken as an exact
    rational ([Q]); [Math.pow] with the loop index as exponent is [Qpower].
    Equalities between numbers are stated with [==] and hold in exact
    arithmetic.  The repeat count and the loop index are integers
    ([parseInt] of a range input).  The module [Binary64] embeds the size
    and position computations of [draw] a second time, over binary64
    numbers as the code computes them; it is used where rounding decides
    what the code gives.

    Canvas.  The 2D canvas is the platform, not code of the component.  It
    is modelled as a display list: the operations issued since the bitmap
    was last reset, each with the transform in force when it was issued.
    The paint of a device pixel is computed from that list.  The component
    never changes the compositing mode or the global alpha; the palette
    colours and the uploaded photographs are taken as opaque, so a call
    replaces what it covers. *)

From Stdlib Require Import QArith Qpower Qminmax Qround Qfield Lqa Qabs.
From Stdlib Require Import ZArith Lia List String Bool.
From Stdlib Require Import Floats.
Import ListNotations.

Local Open Scope Q_scope.

(** ** Platform primitives *)

Module JS.

(** [String.prototype.includes]. *)
Definition includes (s sub : string) : bool :=
  match String.index 0 sub s with
  | Some _ => true
  | None => false
  end.

(** [===] on strings. *)
Definition seq (a b : string) : bool := String.eqb a b.

(** [Math.min] and [Math.max] on integers. *)
Definition minZ (a b : Z) : Z := Z.min a b.
Definition maxZ (a b : Z) : Z := Z.max a b.

End JS.

(** ** Constant tables *)

Record Swatch := { name : string; value : string }.

Definition PALETTE : list Swatch :=
  [ {| name := "News Green"; value := "#6BFF7A" |};
    {| name := "Lavender"; value := "#C9B8FF" |};
    {| name := "Fuchsia"; value := "#FF27B1" |};
    {| name := "Olive"; value := "#6A5B17" |};
    {| name := "Black"; value := "#000000" |};
    {| name := "White"; value := "#FFFFFF" |} ]%string.

Record Size := { w : Q; h : Q }.

(** The [label] of a preset is only shown in the select; it is left out. *)
Definition SIZES : list Size :=
  [ {| w := 1200; h := 675 |};
    {| w := 1920; h := 1080 |};
    {| w := 1200; h := 1200 |};
    {| w := 1600; h := 900 |} ].

Record AnchorOption := { label : string; key : string }.

Definition ANCHORS : list AnchorOption :=
  [ {| label := "Top Left"; key := "tl" |};
    {| label := "Top Right"; key := "tr" |};
    {| label := "Bottom Left"; key := "bl" |};
    {| label := "Bottom Right"; key := "br" |};
    {| label := "Center"; key := "c" |} ]%string.

(** ** Component state *)

(** An [HTMLImageElement] as [draw] reads it: its natural size.  [src] is
    the object URL it was created from and tells two uploads apart. *)
Record Image := { src : string; width : Q; height : Q }.

Record AppState := {
  bg : string;
  size : Size;
  direction : string;
  repeats : Z;
  gapPct : Q;
  stepScale : Q;
  yOffsetPct : Q;
  anchor : string;
  padding : Q;
  baseScalePct : Q;
  imgURL : option string;
  imgObj : option Image;
  dpiScale : Q
}.

(** The state of the first render ([useState] initial values). *)
Definition initialState : AppState :=
  {| bg := "#6BFF7A"; size := {| w := 1200; h := 675 |};
     direction := "right"; repeats := 3; gapPct := -18; stepScale := 90;
     yOffsetPct := 0; anchor := "br"; padding := 24; baseScalePct := 70;
     imgURL := None; imgObj := None; dpiScale := 1 |}.

(** State setters used below ([setGapPct], [setStepScale], [setYOffsetPct],
    [setRepeats], [setImgObj], [setImgURL]). *)
Definition setGapPct (v : Q) (s : AppState) : AppState :=
  {| bg := bg s; size := size s; direction := direction s;
     repeats := repeats s; gapPct := v; stepScale := stepScale s;
     yOffsetPct := yOffsetPct s; anchor := anchor s; padding := padding s;
     baseScalePct := baseScalePct s; imgURL := imgURL s; imgObj := imgObj s;
     dpiScale := dpiScale s |}.

Definition setStepScale (v : Q) (s : AppState) : AppState :=
  {| bg := bg s; size := size s; direction := direction s;
     repeats := repeats s; gapPct := gapPct s; stepScale := v;
     yOffsetPct := yOffsetPct s; anchor := anchor s; padding := padding s;
     baseScalePct := baseScalePct s; imgURL := imgURL s; imgObj := imgObj s;
     dpiScale := dpiScale s |}.

Definition setYOffsetPct (v : Q) (s : AppState) : AppState :=
  {| bg := bg s; size := size s; direction := direction s;
     repeats := repeats s; gapPct := gapPct s; stepScale := stepScale s;
     yOffsetPct := v; anchor := anchor s; padding := padding s;
     baseScalePct := baseScalePct s; imgURL := imgURL s; imgObj := imgObj s;
     dpiScale := dpiScale s |}.

Definition setRepeats (v : Z) (s : AppState) : AppState :=
  {| bg := bg s; size := size s; direction := direction s;
     repeats := v; gapPct := gapPct s; stepScale := stepScale s;
     yOffsetPct := yOffsetPct s; anchor := anchor s; padding := padding s;
     baseScalePct := baseScalePct s; imgURL := imgURL s; imgObj := imgObj s;
     dpiScale := dpiScale s |}.

Definition setImgObj (v : option Image) (s : AppState) : AppState :=
  {| bg := bg s; size := size s; direction := direction s;
     repeats := repeats s; gapPct := gapPct s; stepScale := stepScale s;
     yOffsetPct := yOffsetPct s; anchor := anchor s; padding := padding s;
     baseScalePct := baseScalePct s; imgURL := imgURL s; imgObj := v;
     dpiScale := dpiScale s |}.

Definition setImgURL (v : option string) (s : AppState) : AppState :=
  {| bg := bg s; size := size s; direction := direction s;
     repeats := repeats s; gapPct := gapPct s; stepScale := stepScale s;
     yOffsetPct := yOffsetPct s; anchor := anchor s; padding := padding s;
     baseScalePct := baseScalePct s; imgURL := v; imgObj := imgObj s;
     dpiScale := dpiScale s |}.

(** ** The canvas *)

Record Rect := { rx : Q; ry : Q; rw : Q; rh : Q }.

(** One drawing call, with its arguments as passed (logical coordinates). *)
Inductive Call :=
| FillRect (style : string) (r : Rect)
| DrawImage (img : Image) (r : Rect).

(** A call together with the scale of the transform in force. *)
Record Op := { call : Call; ctm : Q }.

Record Canvas := {
  cwidth : Z;
  cheight : Z;
  transform : Q;
  fillStyle : string;
  ops : list Op
}.

(** Assigning [canvas.width] or [canvas.height] stores the value truncated
    to an integer (the floor, for the sizes that occur, which are not
    negative), clears the bitmap and resets the context state. *)
Definition setWidth (v : Q) (c : Canvas) : Canvas :=
  {| cwidth := Qfloor v; cheight := cheight c; transform := 1;
     fillStyle := "#000000"; ops := [] |}.

Definition setHeight (v : Q) (c : Canvas) : Canvas :=
  {| cwidth := cwidth c; cheight := Qfloor v; transform := 1;
     fillStyle := "#000000"; ops := [] |}.

(** [ctx.setTransform(d, 0, 0, d, 0, 0)]. *)
Definition setTransform (d : Q) (c : Canvas) : Canvas :=
  {| cwidth := cwidth c; cheight := cheight c; transform := d;
     fillStyle := fillStyle c; ops := ops c |}.

Definition setFillStyle (v : string) (c : Canvas) : Canvas :=
  {| cwidth := cwidth c; cheight := cheight c; transform := transform c;
     fillStyle := v; ops := ops c |}.

Definition issue (k : Call) (c : Canvas) : Canvas :=
  {| cwidth := cwidth c; cheight := cheight c; transform := transform c;
     fillStyle := fillStyle c;
     ops := ops c ++ [ {| call := k; ctm := transform c |} ] |}.

Definition fillRect (x y wd ht : Q) (c : Canvas) : Canvas :=
  issue (FillRect (fillStyle c) {| rx := x; ry := y; rw := wd; rh := ht |}) c.

Definition drawImage (img : Image) (x y wd ht : Q) (c : Canvas) : Canvas :=
  issue (DrawImage img {| rx := x; ry := y; rw := wd; rh := ht |}) c.

(** *** Pixels *)

(** What a device pixel shows: nothing yet, a fill colour, a sample of an
    image drawn into a rectangle, or an edge pixel that a call covers only
    in part (the call's paint over what was there). *)
Inductive Paint :=
| Clear
| Solid (colour : string)
| Sampled (img : Image) (r : Rect)
| Edge (top under : Paint).

Definition paintOf (k : Call) : Paint :=
  match k with
  | FillRect style _ => Solid style
  | DrawImage img r => Sampled img r
  end.

Definition rectOf (k : Call) : Rect :=
  match k with
  | FillRect _ r => r
  | DrawImage _ r => r
  end.

Inductive Coverage := Full | Partial | Outside.

(** The interval from [a] to [a + len] scaled by [d], against the unit
    interval that starts at the integer [p].  A negative extent is taken
    from its other end, as the canvas does. *)
Definition cover1 (d a len : Q) (p : Z) : Coverage :=
  let lo := Qmin (d * a) (d * (a + len)) in
  let hi := Qmax (d * a) (d * (a + len)) in
  if Qle_bool lo (inject_Z p) && Qle_bool (inject_Z p + 1) hi then Full
  else if Qle_bool hi (inject_Z p) || Qle_bool (inject_Z p + 1) lo then Outside
  else Partial.

Definition coverage (o : Op) (px py : Z) : Coverage :=
  let r := rectOf (call o) in
  match cover1 (ctm o) (rx r) (rw r) px, cover1 (ctm o) (ry r) (rh r) py with
  | Full, Full => Full
  | Outside, _ => Outside
  | _, Outside => Outside
  | _, _ => Partial
  end.

Definition paintOver (under : Paint) (o : Op) (px py : Z) : Paint :=
  match coverage o px py with
  | Full => paintOf (call o)
  | Partial => Edge (paintOf (call o)) under
  | Outside => under
  end.

(** Calls are applied in the order they were issued; each overwrites the
    pixels it covers whole and touches the edge pixels it covers in part. *)
Definition pixel (c : Canvas) (px py : Z) : Paint :=
  fold_left (fun under o => paintOver under o px py) (ops c) Clear.

Definition onCanvas (c : Canvas) (px py : Z) : Prop :=
  (0 <= px < cwidth c)%Z /\ (0 <= py < cheight c)%Z.

(** ** The draw routine *)

Section Geometry.

Variable st : AppState.
Variable img : Image.

Definition shortest : Q := Qmin (w (size st)) (h (size st)).

Definition baseTarget : Q := (baseScalePct st / 100) * shortest.

Definition imgRatio : Q := width img / height img.

Definition drawW : Q :=
  if Qle_bool 1 imgRatio then baseTarget * imgRatio else baseTarget.

Definition drawH : Q :=
  if Qle_bool 1 imgRatio then baseTarget else baseTarget / imgRatio.

Definition startX : Q :=
  let startX := padding st in
  let startX :=
    if JS.includes (anchor st) "r"
    then w (size st) - padding st - drawW else startX in
  if JS.seq (anchor st) "c" then (w (size st) - drawW) / 2 else startX.

Definition startY : Q :=
  let startY := padding st in
  let startY :=
    if JS.includes (anchor st) "b"
    then h (size st) - padding st - drawH else startY in
  if JS.seq (anchor st) "c" then (h (size st) - drawH) / 2 else startY.

Definition dir : Q := if JS.seq (direction st) "right" then 1 else -1.

Definition gapPx : Q := (gapPct st / 100) * drawW.

Definition yStepPx : Q := (yOffsetPct st / 100) * drawH.

Definition scaleStep : Q := stepScale st / 100.

Definition layers : Z := JS.maxZ 1 (JS.minZ 6 (repeats st)).

(** The body of the loop for index [i], up to the [drawImage] call. *)
Definition scaleAt (i : nat) : Q := Qpower scaleStep (Z.of_nat i).

Definition wI (i : nat) : Q := drawW * scaleAt i.

Definition hI (i : nat) : Q := drawH * scaleAt i.

Definition unadjustedX (i : nat) : Q :=
  startX + dir * gapPx * inject_Z (Z.of_nat i).

Definition unadjustedY (i : nat) : Q :=
  startY + yStepPx * inject_Z (Z.of_nat i).

(** The position after the pivot adjustment of the anchor. *)
Definition layerPos (i : nat) : Q * Q :=
  let x := unadjustedX i in
  let y := unadjustedY i in
  if JS.seq (anchor st) "tr" then (x + (drawW - wI i), y)
  else if JS.seq (anchor st) "bl" then (x, y + (drawH - hI i))
  else if JS.seq (anchor st) "br"
  then (x + (drawW - wI i), y + (drawH - hI i))
  else if JS.seq (anchor st) "c"
  then (x + (drawW - wI i) / 2, y + (drawH - hI i) / 2)
  else (x, y).

Definition layerX (i : nat) : Q := fst (layerPos i).

Definition layerY (i : nat) : Q := snd (layerPos i).

Definition layerRect (i : nat) : Rect :=
  {| rx := layerX i; ry := layerY i; rw := wI i; rh := hI i |}.

(** [for (let i = layers - 1; i >= 0; i--)], with [n] iterations left:
    the next index is [n - 1]. *)
Fixpoint drawLayers (n : nat) (c : Canvas) : Canvas :=
  match n with
  | O => c
  | S i =>
      drawLayers i
        (drawImage img (layerX i) (layerY i) (wI i) (hI i) c)
  end.

End Geometry.

(** [draw] works on [canvasRef.current], which is [null] until the canvas
    element is mounted. *)
Definition draw (st : AppState) (canvasRef : option Canvas) : option Canvas :=
  match canvasRef with
  | None => None
  | Some canvas =>
      let canvas := setWidth (w (size st) * dpiScale st) canvas in
      let canvas := setHeight (h (size st) * dpiScale st) canvas in
      let canvas := setTransform (dpiScale st) canvas in
      let canvas := setFillStyle (bg st) canvas in
      let canvas := fillRect 0 0 (w (size st)) (h (size st)) canvas in
      match imgObj st with
      | None => Some canvas
      | Some img => Some (drawLayers st img (Z.to_nat (layers st)) canvas)
      end
  end.

(** ** The size and position computations in binary64 *)

Module Binary64.

Local Open Scope float_scope.

(** An integer as a Number (exact below 2^53). *)
Definition ofZ (z : Z) : float :=
  match z with
  | Z0 => 0
  | Zpos _ => of_uint63 (Uint63.of_Z z)
  | Zneg p => - of_uint63 (Uint63.of_Z (Zpos p))
  end.

(** A number of the state as the Number the code holds.  The sliders, the
    presets and the natural size of an image are integers, for which this
    is exact. *)
Definition number (q : Q) : float := ofZ (Qnum q) / ofZ (Zpos (Qden q)).

(** The exact value of a finite Number. *)
Definition exact (x : float) : option Q :=
  match Prim2SF x with
  | S754_zero _ => Some 0%Q
  | S754_finite s m e =>
      Some ((if s then - inject_Z (Zpos m) else inject_Z (Zpos m))
            * Qpower 2 e)%Q
  | _ => None
  end.

(** [Math.min] of two numbers. *)
Definition min (a b : float) : float := if a <? b then a else b.

Section Geometry.

Variable st : AppState.
Variable img : Image.

Definition shortest : float :=
  min (number (w (size st))) (number (h (size st))).

Definition baseTarget : float :=
  (number (baseScalePct st) / 100) * shortest.

Definition imgRatio : float := number (width img) / number (height img).

Definition drawW : float :=
  if 1 <=? imgRatio then baseTarget * imgRatio else baseTarget.

Definition drawH : float :=
  if 1 <=? imgRatio then baseTarget else baseTarget / imgRatio.

Definition startX : float :=
  let startX := number (padding st) in
  let startX :=
    if JS.includes (anchor st) "r"
    then number (w (size st)) - number (padding st) - drawW else startX in
  if JS.seq (anchor st) "c"
  then (number (w (size st)) - drawW) / 2 else startX.

Definition startY : float :=
  let startY := number (padding st) in
  let startY :=
    if JS.includes (anchor st) "b"
    then number (h (size st)) - number (padding st) - drawH else startY in
  if JS.seq (anchor st) "c"
  then (number (h (size st)) - drawH) / 2 else startY.

Definition dir : float := if JS.seq (direction st) "right" then 1 else - 1.

Definition gapPx : float := (number (gapPct st) / 100) * drawW.

Definition yStepPx : float := (number (yOffsetPct st) / 100) * drawH.

Definition scaleStep : float := number (stepScale st) / 100.

Definition unadjustedX (i : nat) : float :=
  startX + dir * gapPx * ofZ (Z.of_nat i).

Definition unadjustedY (i : nat) : float :=
  startY + yStepPx * ofZ (Z.of_nat i).

End Geometry.

(** The exact centre of the base rectangle placed at the start position,
    which is the rectangle of layer 0. *)
Definition centre0 (st : AppState) (img : Image) : option (Q * Q) :=
  match exact (startX st img), exact (drawW st img),
        exact (startY st img), exact (drawH st img) with
  | Some x, Some dw, Some y, Some dh => Some (x + dw / 2, y + dh / 2)%Q
  | _, _, _, _ => None
  end.

(** A Number is within 10^-12 of a rational. *)
Definition near (x : float) (q : Q) : bool :=
  match exact x with
  | Some v => Qle_bool (Qabs (v - q)) (1 # 1000000000000)
  | None => false
  end.

End Binary64.

(** ** Re-rendering and the image handlers *)

(** The component together with the canvas element its ref points to. *)
Record World := { state : AppState; canvasRef : option Canvas }.

Definition sameImage (a b : option Image) : bool :=
  match a, b with
  | None, None => true
  | Some i, Some j => String.eqb (src i) (src j)
  | _, _ => false
  end.

(** The dependency list of the redraw effect, compared entry by entry:
    [bg, size, direction, repeats, gapPct, stepScale, yOffsetPct, anchor,
    padding, baseScalePct, imgObj, dpiScale]. *)
Definition sameDeps (a b : AppState) : bool :=
  String.eqb (bg a) (bg b)
  && Qeq_bool (w (size a)) (w (size b))
  && Qeq_bool (h (size a)) (h (size b))
  && String.eqb (direction a) (direction b)
  && Z.eqb (repeats a) (repeats b)
  && Qeq_bool (gapPct a) (gapPct b)
  && Qeq_bool (stepScale a) (stepScale b)
  && Qeq_bool (yOffsetPct a) (yOffsetPct b)
  && String.eqb (anchor a) (anchor b)
  && Qeq_bool (padding a) (padding b)
  && Qeq_bool (baseScalePct a) (baseScalePct b)
  && sameImage (imgObj a) (imgObj b)
  && Qeq_bool (dpiScale a) (dpiScale b).

(** A state update re-renders the component; the effect calls [draw] when a
    dependency changed. *)
Definition update (f : AppState -> AppState) (wd : World) : World :=
  let next := f (state wd) in
  {| state := next;
     canvasRef :=
       if sameDeps (state wd) next then canvasRef wd
       else draw next (canvasRef wd) |}.

(** The first render: the effect runs [draw] once the canvas is mounted. *)
Definition blank : Canvas :=
  {| cwidth := 300; cheight := 150; transform := 1;
     fillStyle := "#000000"; ops := [] |}.

Definition mount : World :=
  {| state := initialState; canvasRef := draw initialState (Some blank) |}.

(** A chosen file: the object URL it gets and, when its bytes decode as an
    image, the natural size of that image. *)
Record File := { url : string; decoded : option (Q * Q) }.

(** [img.onload]. *)
Definition onload (img : Image) (wd : World) : World :=
  update (setImgObj (Some img)) wd.

(** [img.onerror]: both setters are applied in one update. *)
Definition onerror (wd : World) : World :=
  update (fun s => setImgURL None (setImgObj None s)) wd.

(** [onFile], followed by the load or error event of the new image. *)
Definition onFile (file : option File) (wd : World) : World :=
  match file with
  | None => wd
  | Some f =>
      let wd := update (setImgURL (Some (url f))) wd in
      match decoded f with
      | Some (wd0, ht0) =>
          onload {| src := url f; width := wd0; height := ht0 |} wd
      | None => onerror wd
      end
  end.

(** ** The documented domains *)

(** The ranges of the controls: their [min] and [max] attributes and the
    options of the selects. *)
Definition between (lo v hi : Q) : bool := Qle_bool lo v && Qle_bool v hi.

Definition inDomain (s : AppState) : bool :=
  existsb (fun p => String.eqb (value p) (bg s)) PALETTE
  && existsb (fun z => Qeq_bool (w z) (w (size s))
                       && Qeq_bool (h z) (h (size s))) SIZES
  && (String.eqb (direction s) "right" || String.eqb (direction s) "left")
  && (1 <=? repeats s)%Z && (repeats s <=? 6)%Z
  && between (-60) (gapPct s) 60
  && between 60 (stepScale s) 110
  && between (-60) (yOffsetPct s) 60
  && existsb (fun a => String.eqb (key a) (anchor s)) ANCHORS
  && between 0 (padding s) 200
  && between 20 (baseScalePct s) 120.

(** ** Notions of the specification *)

Module Spec.

(** [clamp(v, lo, hi)]. *)
Definition clamp (v lo hi : Z) : Z :=
  if (v <? lo)%Z then lo else if (hi <? v)%Z then hi else v.

(** The side of the canvas an anchor sits on, along one axis: the near
    side (left, top), the middle, or the far side (right, bottom). *)
Inductive Side := Near | Middle | Far.

Definition horizontalSide (a : string) : Side :=
  if String.eqb a "tr" then Far
  else if String.eqb a "br" then Far
  else if String.eqb a "c" then Middle
  else Near.

Definition verticalSide (a : string) : Side :=
  if String.eqb a "bl" then Far
  else if String.eqb a "br" then Far
  else if String.eqb a "c" then Middle
  else Near.

(** The pivot correction for a layer that is [slack] smaller than the
    base rectangle along the axis. *)
Definition correction (s : Side) (slack : Q) : Q :=
  match s with
  | Near => 0
  | Middle => slack / 2
  | Far => slack
  end.

(** The anchor-to-position mapping of the Layout Resolver. *)
Definition anchorPosition (a : string) (cw ch pad dw dh : Q) : Q * Q :=
  if String.eqb a "tl" then (pad, pad)
  else if String.eqb a "tr" then (cw - pad - dw, pad)
  else if String.eqb a "bl" then (pad, ch - pad - dh)
  else if String.eqb a "br" then (cw - pad - dw, ch - pad - dh)
  else ((cw - dw) / 2, (ch - dh) / 2).

(** The point of a rectangle that sits at the anchor: the matching
    corner, or the centre. *)
Definition referencePoint (a : string) (r : Rect) : Q * Q :=
  (rx r + correction (horizontalSide a) (rw r),
   ry r + correction (verticalSide a) (rh r)).

Definition centre (r : Rect) : Q * Q :=
  (rx r + rw r / 2, ry r + rh r / 2).

End Spec.

(** Equality of points and rectangles up to [==]. *)
Definition pointEq (p q : Q * Q) : Prop :=
  fst p == fst q /\ snd p == snd q.

Definition rectEq (r s : Rect) : Prop :=
  rx r == rx s /\ ry r == ry s /\ rw r == rw s /\ rh r == rh s.

(** The indices [n - 1, ..., 0] in the order the loop visits them. *)
Fixpoint countdown (n : nat) : list nat :=
  match n with
  | O => []
  | S i => i :: countdown i
  end.

Definition layerCall (st : AppState) (img : Image) (i : nat) : Call :=
  DrawImage img (layerRect st img i).

Definition isDrawImage (k : Call) : bool :=
  match k with
  | DrawImage _ _ => true
  | FillRect _ _ => false
  end.

Definition background (st : AppState) : Call :=
  FillRect (bg st) {| rx := 0; ry := 0; rw := w (size st); rh := h (size st) |}.

Definition layerOp (st : AppState) (img : Image) (d : Q) (i : nat) : Op :=
  {| call := layerCall st img i; ctm := d |}.

(** The canvas [draw] leaves behind, spelled out. *)
Definition cleared (st : AppState) : Canvas :=
  {| cwidth := Qfloor (w (size st) * dpiScale st);
     cheight := Qfloor (h (size st) * dpiScale st);
     transform := dpiScale st;
     fillStyle := bg st;
     ops := [ {| call := background st; ctm := dpiScale st |} ] |}.

(** ** Scenarios *)

Definition landscape : Image :=
  {| src := "blob:landscape"; width := 800; height := 600 |}.

Definition portrait : Image :=
  {| src := "blob:portrait"; width := 600; height := 800 |}.

Definition wide : Image :=
  {| src := "blob:wide"; width := 1600; height := 600 |}.

(** Scenario A: the initial configuration with a landscape image. *)
Definition scenarioA : AppState := setImgObj (Some landscape) initialState.

(** Scenario C: a portrait image at half of a square canvas. *)
Definition scenarioC : AppState :=
  {| bg := "#6BFF7A"; size := {| w := 1200; h := 1200 |};
     direction := "right"; repeats := 3; gapPct := -18; stepScale := 90;
     yOffsetPct := 0; anchor := "br"; padding := 24; baseScalePct := 50;
     imgURL := Some "blob:portrait"%string; imgObj := Some portrait;
     dpiScale := 1 |}.

(** A single layer anchored at the centre, with the initial gap. *)
Definition centredSingle : AppState :=
  {| bg := "#6BFF7A"; size := {| w := 1200; h := 675 |};
     direction := "right"; repeats := 1; gapPct := -18; stepScale := 90;
     yOffsetPct := 0; anchor := "c"; padding := 24; baseScalePct := 70;
     imgURL := Some "blob:landscape"%string; imgObj := Some landscape;
     dpiScale := 1 |}.

(** Three layers anchored at the centre, with the initial gap. *)
Definition centredStack : AppState := setRepeats 3 centredSingle.

(** The same with no gap (the vertical offset is 0 already). *)
Definition centredAligned : AppState := setGapPct 0 centredStack.

(** The largest base size with a wide image, at the bottom right. *)
Definition oversized : AppState :=
  {| bg := "#6BFF7A"; size := {| w := 1200; h := 675 |};
     direction := "right"; repeats := 3; gapPct := -18; stepScale := 90;
     yOffsetPct := 0; anchor := "br"; padding := 24; baseScalePct := 120;
     imgURL := Some "blob:wide"%string; imgObj := Some wide; dpiScale := 1 |}.

(** The same at the top left. *)
Definition overflowing : AppState :=
  {| bg := "#6BFF7A"; size := {| w := 1200; h := 675 |};
     direction := "right"; repeats := 3; gapPct := -18; stepScale := 90;
     yOffsetPct := 0; anchor := "tl"; padding := 24; baseScalePct := 120;
     imgURL := Some "blob:wide"%string; imgObj := Some wide; dpiScale := 1 |}.

(** The largest padding with a full-height image, at the bottom right. *)
Definition padded : AppState :=
  {| bg := "#6BFF7A"; size := {| w := 1200; h := 675 |};
     direction := "right"; repeats := 3; gapPct := -18; stepScale := 90;
     yOffsetPct := 0; anchor := "br"; padding := 200; baseScalePct := 100;
     imgURL := Some "blob:landscape"%string; imgObj := Some landscape;
     dpiScale := 1 |}.

(** A file that decodes and one that does not. *)
Definition goodFile : File :=
  {| url := "blob:landscape"; decoded := Some (800, 600) |}.

Definition badFile : File := {| url := "blob:notes"; decoded := None |}.

(** The mounted component after a successful upload, and after a failed
    upload that follows it. *)
Definition loaded : World := onFile (Some goodFile) mount.

Definition failedAfterLoaded : World := onFile (Some badFile) loaded.

(** All the layers that are drawn have one centre. *)
Definition commonCentre (st : AppState) (img : Image) : Prop :=
  forall i j : nat,
    (Z.of_nat i < layers st)%Z -> (Z.of_nat j < layers st)%Z ->
    pointEq (Spec.centre (layerRect st img i))
            (Spec.centre (layerRect st img j)).

(** The base rectangle placed at the start position. *)
Definition baseRect (st : AppState) (img : Image) : Rect :=
  {| rx := startX st img; ry := startY st img;
     rw := drawW st img; rh := drawH st img |}.

(** ** The other setters and handlers *)

Definition setBg (v : string) (s : AppState) : AppState :=
  {| bg := v; size := size s; direction := direction s;
     repeats := repeats s; gapPct := gapPct s; stepScale := stepScale s;
     yOffsetPct := yOffsetPct s; anchor := anchor s; padding := padding s;
     baseScalePct := baseScalePct s; imgURL := imgURL s; imgObj := imgObj s;
     dpiScale := dpiScale s |}.

Definition setSize (v : Size) (s : AppState) : AppState :=
  {| bg := bg s; size := v; direction := direction s;
     repeats := repeats s; gapPct := gapPct s; stepScale := stepScale s;
     yOffsetPct := yOffsetPct s; anchor := anchor s; padding := padding s;
     baseScalePct := baseScalePct s; imgURL := imgURL s; imgObj := imgObj s;
     dpiScale := dpiScale s |}.

Definition setDirection (v : string) (s : AppState) : AppState :=
  {| bg := bg s; size := size s; direction := v;
     repeats := repeats s; gapPct := gapPct s; stepScale := stepScale s;
     yOffsetPct := yOffsetPct s; anchor := anchor s; padding := padding s;
     baseScalePct := baseScalePct s; imgURL := imgURL s; imgObj := imgObj s;
     dpiScale := dpiScale s |}.

Definition setAnchor (v : string) (s : AppState) : AppState :=
  {| bg := bg s; size := size s; direction := direction s;
     repeats := repeats s; gapPct := gapPct s; stepScale := stepScale s;
     yOffsetPct := yOffsetPct s; anchor := v; padding := padding s;
     baseScalePct := baseScalePct s; imgURL := imgURL s; imgObj := imgObj s;
     dpiScale := dpiScale s |}.

Definition setPadding (v : Q) (s : AppState) : AppState :=
  {| bg := bg s; size := size s; direction := direction s;
     repeats := repeats s; gapPct := gapPct s; stepScale := stepScale s;
     yOffsetPct := yOffsetPct s; anchor := anchor s; padding := v;
     baseScalePct := baseScalePct s; imgURL := imgURL s; imgObj := imgObj s;
     dpiScale := dpiScale s |}.

Definition setBaseScalePct (v : Q) (s : AppState) : AppState :=
  {| bg := bg s; size := size s; direction := direction s;
     repeats := repeats s; gapPct := gapPct s; stepScale := stepScale s;
     yOffsetPct := yOffsetPct s; anchor := anchor s; padding := padding s;
     baseScalePct := v; imgURL := imgURL s; imgObj := imgObj s;
     dpiScale := dpiScale s |}.

Definition setDpiScale (v : Q) (s : AppState) : AppState :=
  {| bg := bg s; size := size s; direction := direction s;
     repeats := repeats s; gapPct := gapPct s; stepScale := stepScale s;
     yOffsetPct := yOffsetPct s; anchor := anchor s; padding := padding s;
     baseScalePct := baseScalePct s; imgURL := imgURL s; imgObj := imgObj s;
     dpiScale := v |}.

(** Three centred layers at a base scale of 28 percent. *)
Definition centredSmall : AppState := setBaseScalePct 28 centredStack.

(** The device pixel ratio effect:
    [Math.max(1, Math.min(2, window.devicePixelRatio || 1))].  The ratio
    is [None] when the window does not report one; a missing ratio and the
    ratio 0 are falsy and give 1. *)
Definition clampDpr (devicePixelRatio : option Q) : Q :=
  let reported :=
    match devicePixelRatio with
    | Some q => if Qeq_bool q 0 then 1 else q
    | None => 1
    end in
  Qmax 1 (Qmin 2 reported).

Definition dprEffect (devicePixelRatio : option Q) (wd : World) : World :=
  update (setDpiScale (clampDpr devicePixelRatio)) wd.

(** The labels of [SIZES], in the order of the table. *)
Definition sizeLabels : list string :=
  [ "1200 × 675 (16:9)"; "1920 × 1080 (HD)";
    "1200 × 1200 (Square)"; "1600 × 900 (16:9)" ]%string.

Definition sizeOptions : list (string * Size) := combine sizeLabels SIZES.

(** The canvas size select: [sizeOptions.find] by label, and [setSize]
    only when an option was found. *)
Definition onSizeChange (v : string) (wd : World) : World :=
  match find (fun s => String.eqb (fst s) v) sizeOptions with
  | Some next => update (setSize (snd next)) wd
  | None => wd
  end.

(** What the user does.  A range input hands its handler the text of an
    integer inside the range, so a slider event carries the integer that
    [parseInt] returns. *)
Inductive Event :=
| ChooseFile (file : option File)
| SelectSize (v : string)
| SelectDirection (v : string)
| SelectAnchor (v : string)
| PickBackground (v : string)
| SlideRepeats (v : Z)
| SlidePadding (v : Z)
| SlideBaseScale (v : Z)
| SlideGap (v : Z)
| SlideStepScale (v : Z)
| SlideYOffset (v : Z).

Definition handle (e : Event) (wd : World) : World :=
  match e with
  | ChooseFile file => onFile file wd
  | SelectSize v => onSizeChange v wd
  | SelectDirection v => update (setDirection v) wd
  | SelectAnchor v => update (setAnchor v) wd
  | PickBackground v => update (setBg v) wd
  | SlideRepeats v => update (setRepeats v) wd
  | SlidePadding v => update (setPadding (inject_Z v)) wd
  | SlideBaseScale v => update (setBaseScalePct (inject_Z v)) wd
  | SlideGap v => update (setGapPct (inject_Z v)) wd
  | SlideStepScale v => update (setStepScale (inject_Z v)) wd
  | SlideYOffset v => update (setYOffsetPct (inject_Z v)) wd
  end.

Definition run (es : list Event) (wd : World) : World :=
  fold_left (fun acc e => handle e acc) es wd.

(** [URL.createObjectURL] returns a URL no live object has; here, that the
    URL of a chosen file is not the one of the image on display. *)
Definition fresh (e : Event) (wd : World) : Prop :=
  match e with
  | ChooseFile (Some f) =>
      match imgObj (state wd) with
      | Some img => url f <> src img
      | None => True
      end
  | _ => True
  end.

Fixpoint freshAll (es : list Event) (wd : World) : Prop :=
  match es with
  | [] => True
  | e :: rest => fresh e wd /\ freshAll rest (handle e wd)
  end.

(** The surface shows the state: it is what [draw] gives for it. *)
Definition inSync (wd : World) : Prop :=
  canvasRef wd = draw (state wd) (Some blank).

(** The numbers that come from the sliders and the presets are integers. *)
Definition integral (q : Q) : Prop := Qden q = 1%positive.

Definition wellFormed (s : AppState) : Prop :=
  In (size s) SIZES
  /\ integral (padding s) /\ integral (baseScalePct s)
  /\ integral (gapPct s) /\ integral (stepScale s)
  /\ integral (yOffsetPct s).

(** *** Object URLs *)

(** The page together with the object URLs that are alive. *)
Record Browser := { page : World; objectURLs : list string }.

Definition createObjectURL (f : File) (live : list string) : list string :=
  url f :: live.

Definition revokeObjectURL (u : string) (live : list string) : list string :=
  filter (fun v => negb (String.eqb v u)) live.

(** [onFile] with its URL bookkeeping: the URL of the file is created, and
    the updater passed to [setImgURL] revokes the previous one when it is
    a non-empty string.  The error handler revokes nothing. *)
Definition chooseFile (file : option File) (b : Browser) : Browser :=
  match file with
  | None => b
  | Some f =>
      let live := createObjectURL f (objectURLs b) in
      let live :=
        match imgURL (state (page b)) with
        | Some prev =>
            if String.eqb prev "" then live else revokeObjectURL prev live
        | None => live
        end in
      {| page := onFile (Some f) (page b); objectURLs := live |}
  end.

Definition chooseFiles (fs : list File) (b : Browser) : Browser :=
  fold_left (fun acc f => chooseFile (Some f) acc) fs b.

(** *** Download *)

(** [canvas.toDataURL(type, quality)]: the bitmap encoded as asked. *)
Record DataURL := { mime : string; quality : Q; bitmap : Canvas }.

Definition toDataURL (c : Canvas) (type : string) (q : Q) : DataURL :=
  {| mime := type; quality := q; bitmap := c |}.

(** The link that [handleDownload] creates and clicks. *)
Record Link := { href : DataURL; download : string }.

(** [handleDownload]; [type] is [None] when the argument is left out. *)
Definition handleDownload
  (type : option string) (canvasRef : option Canvas) : option Link :=
  let type := match type with Some t => t | None => "image/png"%string end in
  match canvasRef with
  | None => None
  | Some canvas =>
      Some {| href := toDataURL canvas type 0.95;
              download :=
                String.append "newsroom-stylized"
                  (if JS.seq type "image/jpeg" then ".jpg" else ".png") |}
  end.

(** The canvas after [draw], whatever it held before. *)
Definition rendered (st : AppState) : Canvas :=
  match imgObj st with
  | None => cleared st
  | Some img => drawLayers st img (Z.to_nat (layers st)) (cleared st)
  end.

(** The object URLs alive are exactly the one the state holds, if any. *)
Definition tidy (b : Browser) : Prop :=
  objectURLs b
  = match imgURL (state (page b)) with
    | Some u => [u]
    | None => []
    end.

(** A session used below: two uploads, the second one failing, between
    changes of the controls. *)
Definition session : list Event :=
  [ ChooseFile (Some goodFile); SlideGap 10;
    SelectSize "1200 × 1200 (Square)"; SelectAnchor "c";
    ChooseFile (Some badFile); SelectSize "A4"; SlideRepeats 9 ]%string.

(** A browser with the component mounted and no object URL alive. *)
Definition startBrowser : Browser := {| page := mount; objectURLs := [] |}.

(** A second file that decodes, and the browser after a first upload. *)
Definition secondFile : File :=
  {| url := "blob:second"; decoded := Some (600, 800) |}.

Definition uploadedBrowser : Browser := chooseFile (Some goodFile) startBrowser.

(** ** Basic facts about the geometry *)

Section GeometryFacts.

Variable st : AppState.
Variable img : Image.

Lemma scaleAt_0 : scaleAt st 0 == 1.
Proof. reflexivity. Qed.

Lemma scaleAt_S (i : nat) : scaleAt st (S i) == scaleStep st * scaleAt st i.
Proof.
  unfold scaleAt.
  rewrite Nat2Z.inj_succ, <- Z.add_1_l.
  rewrite Qpower_plus' by lia.
  reflexivity.
Qed.

Lemma wI_0 : wI st img 0 == drawW st img.
Proof. unfold wI. rewrite scaleAt_0. ring. Qed.

Lemma hI_0 : hI st img 0 == drawH st img.
Proof. unfold hI. rewrite scaleAt_0. ring. Qed.

Lemma unadjustedX_0 : unadjustedX st img 0 == startX st img.
Proof. unfold unadjustedX. change (inject_Z (Z.of_nat 0)) with 0. ring. Qed.

Lemma unadjustedY_0 : unadjustedY st img 0 == startY st img.
Proof. unfold unadjustedY. change (inject_Z (Z.of_nat 0)) with 0. ring. Qed.

(** The position of a layer is its unadjusted position plus the pivot
    correction of the anchor's side, for every anchor string. *)
Lemma layerX_correction (i : nat) :
  layerX st img i ==
  unadjustedX st img i
  + Spec.correction (Spec.horizontalSide (anchor st))
      (drawW st img - wI st img i).
Proof.
  unfold layerX, layerPos, Spec.horizontalSide, JS.seq.
  destruct (String.eqb (anchor st) "tr") eqn:Etr.
  - simpl. reflexivity.
  - destruct (String.eqb (anchor st) "bl") eqn:Ebl.
    + apply String.eqb_eq in Ebl. rewrite Ebl. simpl. ring.
    + destruct (String.eqb (anchor st) "br"); [ simpl; reflexivity | ].
      destruct (String.eqb (anchor st) "c"); simpl; [ reflexivity | ring ].
Qed.

Lemma layerY_correction (i : nat) :
  layerY st img i ==
  unadjustedY st img i
  + Spec.correction (Spec.verticalSide (anchor st))
      (drawH st img - hI st img i).
Proof.
  unfold layerY, layerPos, Spec.verticalSide, JS.seq.
  destruct (String.eqb (anchor st) "tr") eqn:Etr.
  - apply String.eqb_eq in Etr. rewrite Etr. simpl. ring.
  - destruct (String.eqb (anchor st) "bl"); [ simpl; reflexivity | ].
    destruct (String.eqb (anchor st) "br"); [ simpl; reflexivity | ].
    destruct (String.eqb (anchor st) "c"); simpl; [ reflexivity | ring ].
Qed.

(** The correction of a layer and the extent of the layer add up to the
    extent of the base rectangle on the anchor's side. *)
Lemma correction_slack (s : Spec.Side) (full part : Q) :
  Spec.correction s (full - part) + Spec.correction s part
  == Spec.correction s full.
Proof. destruct s; simpl; field. Qed.

(** Each layer keeps its reference point on the line through the
    reference point of the base rectangle: it moves by the index times the
    two steps, whatever the scale. *)
Lemma reference_point_steps (i : nat) :
  pointEq
    (Spec.referencePoint (anchor st) (layerRect st img i))
    (fst (Spec.referencePoint (anchor st) (baseRect st img))
       + dir st * gapPx st img * inject_Z (Z.of_nat i),
     snd (Spec.referencePoint (anchor st) (baseRect st img))
       + yStepPx st img * inject_Z (Z.of_nat i)).
Proof.
  unfold pointEq, Spec.referencePoint, layerRect, baseRect. simpl.
  rewrite layerX_correction, layerY_correction.
  unfold unadjustedX, unadjustedY.
  rewrite <- (correction_slack (Spec.horizontalSide (anchor st))
                (drawW st img) (wI st img i)).
  rewrite <- (correction_slack (Spec.verticalSide (anchor st))
                (drawH st img) (hI st img i)).
  split; ring.
Qed.

Lemma correction_0 (s : Spec.Side) (q : Q) :
  q == 0 -> Spec.correction s q == 0.
Proof.
  intros Hq. destruct s; simpl; [ reflexivity | | exact Hq ].
  rewrite Hq. reflexivity.
Qed.

Lemma layerX_0 : layerX st img 0 == startX st img.
Proof.
  rewrite layerX_correction, unadjustedX_0.
  rewrite correction_0; [ ring | rewrite wI_0; ring ].
Qed.

Lemma layerY_0 : layerY st img 0 == startY st img.
Proof.
  rewrite layerY_correction, unadjustedY_0.
  rewrite correction_0; [ ring | rewrite hI_0; ring ].
Qed.

End GeometryFacts.

(** ** The calls issued by [draw] *)

Lemma countdown_length (n : nat) : List.length (countdown n) = n.
Proof. induction n as [|n IH]; simpl; [ reflexivity | now rewrite IH ]. Qed.

Lemma countdown_nth (n k : nat) :
  (k < n)%nat -> nth_error (countdown n) k = Some (n - 1 - k)%nat.
Proof.
  revert k. induction n as [|n IH]; intros k Hk; [ lia | ].
  destruct k as [|k]; simpl.
  - f_equal. lia.
  - rewrite IH by lia. f_equal. lia.
Qed.

Lemma countdown_last (n : nat) : exists l, countdown (S n) = l ++ [O].
Proof.
  induction n as [|n [l IH]]; [ exists []; reflexivity | ].
  exists (S n :: l).
  change (countdown (S (S n))) with (S n :: countdown (S n)).
  rewrite IH. reflexivity.
Qed.

Lemma layers_clamp (st : AppState) : layers st = Spec.clamp (repeats st) 1 6.
Proof.
  unfold layers, JS.maxZ, JS.minZ, Spec.clamp.
  destruct (repeats st <? 1)%Z eqn:E1; [ apply Z.ltb_lt in E1; lia | ].
  apply Z.ltb_ge in E1.
  destruct (6 <? repeats st)%Z eqn:E6;
    [ apply Z.ltb_lt in E6 | apply Z.ltb_ge in E6 ]; lia.
Qed.

Lemma layers_range (st : AppState) : (1 <= layers st <= 6)%Z.
Proof. unfold layers, JS.maxZ, JS.minZ. lia. Qed.

Section Calls.

Variable st : AppState.
Variable img : Image.

Lemma drawLayers_frame (n : nat) (c : Canvas) :
  cwidth (drawLayers st img n c) = cwidth c
  /\ cheight (drawLayers st img n c) = cheight c
  /\ transform (drawLayers st img n c) = transform c.
Proof.
  revert c. induction n as [|n IH]; intros c; simpl; [ auto | ].
  destruct (IH (drawImage img (layerX st img n) (layerY st img n)
                  (wI st img n) (hI st img n) c)) as (Hw & Hh & Ht).
  rewrite Hw, Hh, Ht. auto.
Qed.

Lemma drawLayers_ops (n : nat) (c : Canvas) :
  ops (drawLayers st img n c)
  = ops c ++ map (layerOp st img (transform c)) (countdown n).
Proof.
  revert c. induction n as [|n IH]; intros c; simpl.
  - now rewrite app_nil_r.
  - rewrite IH. simpl. rewrite <- app_assoc. reflexivity.
Qed.

End Calls.

Lemma draw_no_canvas (st : AppState) : draw st None = None.
Proof. reflexivity. Qed.

Lemma draw_no_image (st : AppState) (canvas : Canvas) :
  imgObj st = None -> draw st (Some canvas) = Some (cleared st).
Proof. intros H. unfold draw. rewrite H. reflexivity. Qed.

Lemma draw_image (st : AppState) (img : Image) (canvas : Canvas) :
  imgObj st = Some img ->
  draw st (Some canvas)
  = Some (drawLayers st img (Z.to_nat (layers st)) (cleared st)).
Proof. intros H. unfold draw. rewrite H. reflexivity. Qed.

Lemma draw_image_calls (st : AppState) (img : Image) :
  map call (ops (drawLayers st img (Z.to_nat (layers st)) (cleared st)))
  = background st
    :: map (layerCall st img) (countdown (Z.to_nat (layers st))).
Proof.
  rewrite drawLayers_ops. simpl. f_equal.
  rewrite map_map. reflexivity.
Qed.

(** ** Pixels of a display list *)

Lemma pixel_last (c : Canvas) (l : list Op) (o : Op) (px py : Z) :
  ops c = l ++ [o] ->
  coverage o px py = Full ->
  pixel c px py = paintOf (call o).
Proof.
  intros Hops Hcov. unfold pixel. rewrite Hops, fold_left_app. simpl.
  unfold paintOver. rewrite Hcov. reflexivity.
Qed.

(** A pixel of the bitmap lies inside the rectangle that spans the whole
    logical canvas, whatever the density. *)
Lemma cover1_whole (d len : Q) (p : Z) :
  (0 <= p < Qfloor (len * d))%Z -> cover1 d 0 len p = Full.
Proof.
  intros [H0 H1]. unfold cover1.
  assert (Hp : 0 <= inject_Z p).
  { change 0 with (inject_Z 0). rewrite <- Zle_Qle. exact H0. }
  assert (Hq : inject_Z p + 1 <= len * d).
  { apply Qle_trans with (inject_Z (Qfloor (len * d))); [ | apply Qfloor_le ].
    change 1 with (inject_Z 1). rewrite <- inject_Z_plus, <- Zle_Qle. lia. }
  assert (Hd : d * 0 <= d * (0 + len)).
  { setoid_replace (d * 0) with 0 by ring.
    setoid_replace (d * (0 + len)) with (len * d) by ring. lra. }
  assert (Hlo : Qle_bool (Qmin (d * 0) (d * (0 + len))) (inject_Z p) = true).
  { apply Qle_bool_iff. rewrite (Q.min_l _ _ Hd).
    setoid_replace (d * 0) with 0 by ring. exact Hp. }
  assert (Hhi : Qle_bool (inject_Z p + 1) (Qmax (d * 0) (d * (0 + len))) = true).
  { apply Qle_bool_iff. rewrite (Q.max_r _ _ Hd).
    setoid_replace (d * (0 + len)) with (len * d) by ring. exact Hq. }
  rewrite Hlo, Hhi. reflexivity.
Qed.

Lemma cleared_pixel (st : AppState) (px py : Z) :
  onCanvas (cleared st) px py -> pixel (cleared st) px py = Solid (bg st).
Proof.
  intros [Hx Hy]. simpl in Hx, Hy.
  apply (pixel_last (cleared st) [] {| call := background st; ctm := dpiScale st |});
    [ reflexivity | ].
  unfold coverage. simpl.
  rewrite (cover1_whole _ _ _ Hx), (cover1_whole _ _ _ Hy). reflexivity.
Qed.

(** ** Layer 0 and the start position *)

Lemma valid_anchor_cases (a : string) :
  In a (map key ANCHORS) ->
  a = "tl"%string \/ a = "tr"%string \/ a = "bl"%string
  \/ a = "br"%string \/ a = "c"%string.
Proof.
  simpl. intros [H|[H|[H|[H|[H|[]]]]]]; subst a; tauto.
Qed.

Lemma start_is_anchor_position (st : AppState) (img : Image) :
  In (anchor st) (map key ANCHORS) ->
  pointEq (startX st img, startY st img)
    (Spec.anchorPosition (anchor st) (w (size st)) (h (size st))
       (padding st) (drawW st img) (drawH st img)).
Proof.
  intros Ha. apply valid_anchor_cases in Ha.
  unfold pointEq, startX, startY, Spec.anchorPosition, JS.includes, JS.seq.
  destruct Ha as [H|[H|[H|[H|H]]]]; rewrite H; simpl; split; reflexivity.
Qed.

Lemma rectEq_sym (r s : Rect) : rectEq r s -> rectEq s r.
Proof.
  intros (Hx & Hy & Hw & Hh). repeat split; symmetry; assumption.
Qed.

Lemma rectEq_trans (r s t : Rect) : rectEq r s -> rectEq s t -> rectEq r t.
Proof.
  intros (Hx & Hy & Hw & Hh) (Kx & Ky & Kw & Kh).
  repeat split; etransitivity; eassumption.
Qed.

Lemma layer0_is_base (st : AppState) (img : Image) :
  rectEq (layerRect st img 0) (baseRect st img).
Proof.
  unfold rectEq, layerRect, baseRect; simpl.
  repeat split;
    [ apply layerX_0 | apply layerY_0 | apply wI_0 | apply hI_0 ].
Qed.

(** C1. For every configuration and loaded image, layer 0 is drawn at the
    start position computed by the layout step, which for the five anchors
    is the anchor-to-position mapping of anchor, padding, draw size and
    canvas size; its rectangle is the base rectangle, so the point of it
    that sits at the anchor is that of the base rectangle (the reference
    point of layer [i] is that point moved by [i] times the two steps, and
    the move is zero at index 0); and the rectangle of layer 0 is the same
    for every other value of the gap, of the vertical offset and of the
    scale step. *)
Theorem layer0_at_start
  (st : AppState) (img : Image) (Ha : In (anchor st) (map key ANCHORS)) :
  pointEq (rx (layerRect st img 0), ry (layerRect st img 0))
    (Spec.anchorPosition (anchor st) (w (size st)) (h (size st))
       (padding st) (drawW st img) (drawH st img))
  /\ rectEq (layerRect st img 0) (baseRect st img)
  /\ pointEq (Spec.referencePoint (anchor st) (layerRect st img 0))
       (Spec.referencePoint (anchor st) (baseRect st img))
  /\ (forall i : nat,
        pointEq
          (Spec.referencePoint (anchor st) (layerRect st img i))
          (fst (Spec.referencePoint (anchor st) (baseRect st img))
             + dir st * gapPx st img * inject_Z (Z.of_nat i),
           snd (Spec.referencePoint (anchor st) (baseRect st img))
             + yStepPx st img * inject_Z (Z.of_nat i)))
  /\ forall g y s : Q,
       rectEq
         (layerRect (setGapPct g (setYOffsetPct y (setStepScale s st))) img 0)
         (layerRect st img 0).
Proof.
  pose proof (layer0_is_base st img) as Hbase.
  pose proof Hbase as (Hx & Hy & Hw & Hh).
  pose proof (start_is_anchor_position st img Ha) as [Sx Sy].
  simpl in Hx, Hy, Hw, Hh, Sx, Sy.
  split; [ | split; [ exact Hbase | split; [ | split ] ] ].
  - split; simpl; [ rewrite Hx; exact Sx | rewrite Hy; exact Sy ].
  - destruct (reference_point_steps st img 0) as [Rx Ry].
    simpl in Rx, Ry. change (inject_Z 0) with 0 in Rx, Ry.
    split; simpl; [ rewrite Rx | rewrite Ry ]; ring.
  - intros i. apply reference_point_steps.
  - intros g y s.
    apply rectEq_trans with (baseRect st img); [ | apply rectEq_sym, Hbase ].
    exact (layer0_is_base (setGapPct g (setYOffsetPct y (setStepScale s st))) img).
Qed.

(** ** The position of every layer *)

Lemma drawn_layer_in (st : AppState) (img : Image) (i : nat) :
  (i < Z.to_nat (layers st))%nat ->
  In (layerCall st img i)
     (map call (ops (drawLayers st img (Z.to_nat (layers st)) (cleared st)))).
Proof.
  intros Hi. rewrite draw_image_calls. right. apply in_map.
  generalize (Z.to_nat (layers st)) Hi. clear Hi.
  intros n. induction n as [|n IH]; intros Hi; [ lia | ].
  simpl. destruct (Nat.eq_dec i n) as [->|Hne]; [ left; reflexivity | ].
  right. apply IH. lia.
Qed.

(** A literal below may have more digits than a binary64 number needs. *)
#[local] Set Warnings "-inexact-float".

(** C2 as stated fails in Scenario A: the code computes in binary64, where
    the base height is not 472.5, the base width not 630, layer 0 not at
    (546, 178.5) and the horizontal step not -113.4. *)
Lemma scenarioA_rounds :
  PrimFloat.eqb (Binary64.drawH scenarioA landscape) 472.5 = false
  /\ PrimFloat.eqb (Binary64.drawW scenarioA landscape) 630 = false
  /\ PrimFloat.eqb (Binary64.startX scenarioA landscape) 546 = false
  /\ PrimFloat.eqb (Binary64.startY scenarioA landscape) 178.5 = false
  /\ PrimFloat.eqb (Binary64.gapPx scenarioA landscape) (-113.4) = false.
Proof. repeat split. Qed.

(** C2, as the code has it. For every layer index the position is the
    start position moved by the index times the horizontal step (the gap
    percentage of the base width, with sign +1 for the direction "right"
    and -1 otherwise) and the vertical step (the offset percentage of the
    base height), plus the pivot correction: the whole slack between the
    base size and the layer size on the right and bottom sides, half of it
    at the centre, nothing at the top left; the layer size is the base
    size times the scale; and [draw] passes that position and size to
    [drawImage] for every index below the layer count.  In Scenario A the
    code gets, in binary64, a base size of 629.9999999999999 by
    472.49999999999994, layer 0 at (546.0000000000001, 178.50000000000006),
    the scale step 0.9 and a horizontal step of -113.39999999999998; these
    are within 10^-12 of 630, 472.5, (546, 178.5) and -113.4, the values
    in exact arithmetic. *)
Theorem layer_position (st : AppState) (img : Image) (i : nat) :
  (layerX st img i
     == startX st img
        + (if String.eqb (direction st) "right" then 1 else -1)
          * (gapPct st / 100 * drawW st img) * inject_Z (Z.of_nat i)
        + Spec.correction (Spec.horizontalSide (anchor st))
            (drawW st img
             - drawW st img * (stepScale st / 100) ^ Z.of_nat i)
   /\ layerY st img i
     == startY st img
        + (yOffsetPct st / 100 * drawH st img) * inject_Z (Z.of_nat i)
        + Spec.correction (Spec.verticalSide (anchor st))
            (drawH st img
             - drawH st img * (stepScale st / 100) ^ Z.of_nat i))
  /\ (wI st img i == drawW st img * (stepScale st / 100) ^ Z.of_nat i
     /\ hI st img i == drawH st img * (stepScale st / 100) ^ Z.of_nat i)
  /\ (forall slack : Q,
       Spec.correction (Spec.horizontalSide "tl") slack = 0
       /\ Spec.correction (Spec.verticalSide "tl") slack = 0
       /\ Spec.correction (Spec.horizontalSide "br") slack = slack
       /\ Spec.correction (Spec.verticalSide "br") slack = slack
       /\ Spec.correction (Spec.horizontalSide "tr") slack = slack
       /\ Spec.correction (Spec.verticalSide "tr") slack = 0
       /\ Spec.correction (Spec.horizontalSide "bl") slack = 0
       /\ Spec.correction (Spec.verticalSide "bl") slack = slack
       /\ Spec.correction (Spec.horizontalSide "c") slack = slack / 2
       /\ Spec.correction (Spec.verticalSide "c") slack = slack / 2)
  /\ (forall canvas : Canvas,
       imgObj st = Some img -> (Z.of_nat i < layers st)%Z ->
       exists c : Canvas,
         draw st (Some canvas) = Some c
         /\ In (DrawImage img
                  {| rx := layerX st img i; ry := layerY st img i;
                     rw := wI st img i; rh := hI st img i |})
               (map call (ops c)))
  /\ (Binary64.drawH scenarioA landscape = 472.49999999999994%float
     /\ Binary64.drawW scenarioA landscape = 629.99999999999989%float
     /\ Binary64.startX scenarioA landscape = 546.00000000000011%float
     /\ Binary64.startY scenarioA landscape = 178.50000000000006%float
     /\ Binary64.scaleStep scenarioA = 0.90000000000000002%float
     /\ Binary64.gapPx scenarioA landscape = (-113.39999999999998)%float
     /\ Binary64.unadjustedX scenarioA landscape 1
       = 432.60000000000014%float)
  /\ (Binary64.near (Binary64.drawH scenarioA landscape) 472.5 = true
     /\ Binary64.near (Binary64.drawW scenarioA landscape) 630 = true
     /\ Binary64.near (Binary64.startX scenarioA landscape) (1200 - 24 - 630)
       = true
     /\ Binary64.near (Binary64.startY scenarioA landscape)
         (675 - 24 - 472.5) = true
     /\ Binary64.near (Binary64.scaleStep scenarioA) 0.9 = true
     /\ Binary64.near (Binary64.gapPx scenarioA landscape) (-113.4) = true).
Proof.
  split.
  { split.
    - rewrite layerX_correction. unfold unadjustedX, dir, gapPx, JS.seq,
        wI, scaleAt, scaleStep. reflexivity.
    - rewrite layerY_correction. unfold unadjustedY, yStepPx,
        hI, scaleAt, scaleStep. reflexivity. }
  split; [ split; reflexivity | ].
  split; [ intros slack; repeat split | ].
  split.
  { intros canvas Himg Hi. eexists.
    split; [ apply draw_image; exact Himg | ].
    apply (drawn_layer_in st img i). lia. }
  split; repeat split.
Qed.

(** ** The scale sequence *)

Lemma scaleAt_nonneg (st : AppState) (i : nat) :
  0 <= stepScale st -> 0 <= scaleAt st i.
Proof.
  intros H. unfold scaleAt. apply Qpower_0_le.
  unfold scaleStep. apply Qle_shift_div_l; [ reflexivity | lra ].
Qed.

Lemma scaleAt_shrinks (st : AppState) (i j : nat) :
  0 <= stepScale st -> stepScale st <= 100 -> (i <= j)%nat ->
  scaleAt st j <= scaleAt st i.
Proof.
  intros H0 H1 Hij. induction Hij as [|j Hij IH]; [ apply Qle_refl | ].
  apply Qle_trans with (scaleAt st j); [ | exact IH ].
  rewrite scaleAt_S.
  pose proof (scaleAt_nonneg st j H0) as Hj.
  assert (Hs : scaleStep st <= 1).
  { unfold scaleStep. apply Qle_shift_div_r; [ reflexivity | lra ]. }
  nra.
Qed.

Lemma scaleAt_grows (st : AppState) (i j : nat) :
  100 <= stepScale st -> (i <= j)%nat ->
  scaleAt st i <= scaleAt st j.
Proof.
  intros H1 Hij. induction Hij as [|j Hij IH]; [ apply Qle_refl | ].
  apply Qle_trans with (scaleAt st j); [ exact IH | ].
  rewrite scaleAt_S.
  assert (H0 : 0 <= stepScale st) by lra.
  pose proof (scaleAt_nonneg st j H0) as Hj.
  assert (Hs : 1 <= scaleStep st).
  { unfold scaleStep. apply Qle_shift_div_l; [ reflexivity | lra ]. }
  nra.
Qed.

(** C4. For every layer index the scale is the scale step over 100 raised
    to the index, it is 1 at index 0, and it multiplies the base size; for
    a scale step that is not negative the sequence does not increase when
    the step is at most 100 and does not decrease when it is above 100. *)
Theorem scale_sequence
  (st : AppState) (img : Image) (i j : nat)
  (Hij : (i <= j)%nat) (Hs : 0 <= stepScale st) :
  scaleAt st i == (stepScale st / 100) ^ Z.of_nat i
  /\ scaleAt st 0 == 1
  /\ (wI st img i == drawW st img * scaleAt st i
     /\ hI st img i == drawH st img * scaleAt st i)
  /\ (stepScale st <= 100 -> scaleAt st j <= scaleAt st i)
  /\ (100 < stepScale st -> scaleAt st i <= scaleAt st j).
Proof.
  split; [ reflexivity | ].
  split; [ reflexivity | ].
  split; [ split; reflexivity | ].
  split; intros H.
  - apply scaleAt_shrinks; assumption.
  - apply scaleAt_grows; [ lra | assumption ].
Qed.

(** ** The number of layers *)

Lemma drawn_layers_length (st : AppState) (img : Image) (l : list nat) :
  List.length (filter isDrawImage (background st :: map (layerCall st img) l))
  = List.length l.
Proof.
  simpl. induction l as [|i l IH]; simpl; [ reflexivity | now rewrite IH ].
Qed.

(** C5. For every requested repeat count, inside [1,6] or not, the number
    of images [draw] composites for a loaded image is the count clamped to
    [1,6]; a request of 9 gives 6 layers and a request of 0 gives 1. *)
Theorem layer_count
  (st : AppState) (img : Image) (canvas : Canvas)
  (Himg : imgObj st = Some img) :
  (exists c : Canvas,
     draw st (Some canvas) = Some c
     /\ Z.of_nat (List.length (filter isDrawImage (map call (ops c))))
        = Spec.clamp (repeats st) 1 6)
  /\ (exists c : Canvas,
        draw (setRepeats 9 st) (Some canvas) = Some c
        /\ List.length (filter isDrawImage (map call (ops c))) = 6%nat)
  /\ (exists c : Canvas,
        draw (setRepeats 0 st) (Some canvas) = Some c
        /\ List.length (filter isDrawImage (map call (ops c))) = 1%nat).
Proof.
  assert (Hcount : forall s : AppState, imgObj s = Some img ->
            exists c : Canvas,
              draw s (Some canvas) = Some c
              /\ List.length (filter isDrawImage (map call (ops c)))
                 = Z.to_nat (layers s)).
  { intros s Hs. eexists. split; [ apply draw_image; exact Hs | ].
    rewrite draw_image_calls, drawn_layers_length.
    apply countdown_length. }
  split; [ | split ].
  - destruct (Hcount st Himg) as (c & Hc & Hlen).
    exists c. split; [ exact Hc | ].
    rewrite Hlen, <- layers_clamp.
    pose proof (layers_range st). lia.
  - destruct (Hcount (setRepeats 9 st) Himg) as (c & Hc & Hlen).
    exists c. split; [ exact Hc | rewrite Hlen; reflexivity ].
  - destruct (Hcount (setRepeats 0 st) Himg) as (c & Hc & Hlen).
    exists c. split; [ exact Hc | rewrite Hlen; reflexivity ].
Qed.

(** ** The base size *)

Lemma imgRatio_pos (img : Image) :
  0 < width img -> 0 < height img -> 0 < imgRatio img.
Proof.
  intros Hw Hh. unfold imgRatio.
  apply Qlt_shift_div_l; [ exact Hh | lra ].
Qed.

Lemma baseTarget_nonneg (st : AppState) :
  0 <= baseScalePct st -> 0 <= w (size st) -> 0 <= h (size st) ->
  0 <= baseTarget st.
Proof.
  intros Hb Hw Hh. unfold baseTarget, shortest.
  apply Qmult_le_0_compat.
  - apply Qle_shift_div_l; [ reflexivity | lra ].
  - apply Q.min_glb; assumption.
Qed.

Lemma drawW_landscape (st : AppState) (img : Image) :
  1 <= imgRatio img ->
  drawW st img = baseTarget st * imgRatio img /\ drawH st img = baseTarget st.
Proof.
  intros H. apply Qle_bool_iff in H. unfold drawW, drawH. rewrite H. auto.
Qed.

Lemma drawW_portrait (st : AppState) (img : Image) :
  imgRatio img < 1 ->
  drawW st img = baseTarget st /\ drawH st img = baseTarget st / imgRatio img.
Proof.
  intros H. unfold drawW, drawH.
  destruct (Qle_bool 1 (imgRatio img)) eqn:E; [ | auto ].
  apply Qle_bool_iff in E. lra.
Qed.

(** C6. The base height is the base target and the base width the target
    times the aspect ratio when the ratio is at least 1; otherwise the base
    width is the target and the base height the target over the ratio; the
    target is the base scale percentage of the shorter canvas side.  For an
    image of positive size and a base scale and canvas that are not
    negative, the shorter side of the base rectangle is the target.  A
    600x800 image at 50 percent of a 1200x1200 canvas is drawn 600x800. *)
Theorem base_size
  (st : AppState) (img : Image)
  (Hiw : 0 < width img) (Hih : 0 < height img)
  (Hb : 0 <= baseScalePct st)
  (Hcw : 0 <= w (size st)) (Hch : 0 <= h (size st)) :
  baseTarget st
    == baseScalePct st / 100 * Qmin (w (size st)) (h (size st))
  /\ (1 <= width img / height img ->
      drawH st img == baseTarget st
      /\ drawW st img == baseTarget st * (width img / height img))
  /\ (width img / height img < 1 ->
      drawW st img == baseTarget st
      /\ drawH st img == baseTarget st / (width img / height img))
  /\ Qmin (drawW st img) (drawH st img) == baseTarget st
  /\ (drawW scenarioC portrait == 600 /\ drawH scenarioC portrait == 800).
Proof.
  pose proof (imgRatio_pos img Hiw Hih) as Hr.
  pose proof (baseTarget_nonneg st Hb Hcw Hch) as Ht.
  split; [ reflexivity | ].
  split; [ | split; [ | split ] ].
  - intros H. destruct (drawW_landscape st img H) as [-> ->].
    split; reflexivity.
  - intros H. destruct (drawW_portrait st img H) as [-> ->].
    split; reflexivity.
  - destruct (Qlt_le_dec (imgRatio img) 1) as [H|H].
    + destruct (drawW_portrait st img H) as [-> ->].
      apply Q.min_l. apply Qle_shift_div_l; [ exact Hr | nra ].
    + destruct (drawW_landscape st img H) as [-> ->].
      apply Q.min_r. nra.
  - split; vm_compute; reflexivity.
Qed.

(** ** The compositor *)

Lemma background_free (s : AppState) (canvas : Canvas) :
  exists c : Canvas,
    draw (setImgURL None (setImgObj None s)) (Some canvas) = Some c
    /\ map call (ops c) = [background s]
    /\ forall px py : Z, onCanvas c px py -> pixel c px py = Solid (bg s).
Proof.
  exists (cleared s).
  split; [ reflexivity | ].
  split; [ reflexivity | ].
  intros px py H. apply cleared_pixel. exact H.
Qed.

(** C8. For every configuration with no image loaded, [draw] fills the
    logical canvas with the background colour and issues no other call, so
    every pixel of the bitmap has the background colour. *)
Theorem background_only
  (st : AppState) (canvas : Canvas) (Himg : imgObj st = None) :
  exists c : Canvas,
    draw st (Some canvas) = Some c
    /\ map call (ops c) = [background st]
    /\ forall px py : Z, onCanvas c px py -> pixel c px py = Solid (bg st).
Proof.
  exists (cleared st).
  split; [ apply draw_no_image; exact Himg | ].
  split; [ reflexivity | ].
  intros px py H. apply cleared_pixel. exact H.
Qed.

Lemma drawn_last_layer (st : AppState) (img : Image) :
  exists l : list Op,
    ops (drawLayers st img (Z.to_nat (layers st)) (cleared st))
    = l ++ [layerOp st img (dpiScale st) 0].
Proof.
  pose proof (layers_range st) as Hr.
  destruct (Z.to_nat (layers st)) as [|n] eqn:En; [ lia | ].
  destruct (countdown_last n) as [l Hl].
  exists ({| call := background st; ctm := dpiScale st |}
            :: map (layerOp st img (dpiScale st)) l).
  rewrite drawLayers_ops, Hl, map_app. reflexivity.
Qed.

(** C9. With an image loaded, the calls of [draw] after the background
    fill are the layers in descending index order: the call number [k]
    draws layer [N - 1 - k], and the last call draws layer 0.  Every pixel
    that the rectangle of layer 0 covers shows the image as layer 0 drew
    it. *)
Theorem back_to_front
  (st : AppState) (img : Image) (canvas : Canvas)
  (Himg : imgObj st = Some img) :
  exists c : Canvas,
    draw st (Some canvas) = Some c
    /\ map call (ops c)
       = background st
         :: map (layerCall st img) (countdown (Z.to_nat (layers st)))
    /\ (forall k : nat,
          (k < Z.to_nat (layers st))%nat ->
          nth_error (map call (ops c)) (S k)
          = Some (layerCall st img (Z.to_nat (layers st) - 1 - k)))
    /\ (exists l : list Op, ops c = l ++ [layerOp st img (dpiScale st) 0])
    /\ forall px py : Z,
         coverage (layerOp st img (dpiScale st) 0) px py = Full ->
         pixel c px py = Sampled img (layerRect st img 0).
Proof.
  exists (drawLayers st img (Z.to_nat (layers st)) (cleared st)).
  split; [ apply draw_image; exact Himg | ].
  split; [ apply draw_image_calls | ].
  split; [ | split ].
  - intros k Hk. rewrite draw_image_calls. simpl.
    rewrite nth_error_map, countdown_nth by exact Hk. reflexivity.
  - apply drawn_last_layer.
  - intros px py Hcov.
    destruct (drawn_last_layer st img) as [l Hl].
    apply (pixel_last _ l (layerOp st img (dpiScale st) 0) px py Hl Hcov).
Qed.

(** ** Positions outside the canvas *)

(** C10. Positions are never clamped to the canvas: every rectangle that
    [draw] passes to [drawImage] is the rectangle of the layer formula, and
    configurations inside the documented ranges give rectangles outside the
    canvas.  With the base scale at 120 and a 1600x600 image, the
    bottom-right anchor puts layer 0 at negative x and y, and the top-left
    anchor makes it end beyond the right and bottom edges; with a padding
    of 200 and a full-height image the bottom-right anchor gives a negative
    y. *)
Theorem positions_not_clamped :
  (forall (st : AppState) (img : Image) (canvas : Canvas),
      imgObj st = Some img ->
      exists c : Canvas,
        draw st (Some canvas) = Some c
        /\ forall k : Call,
             In k (map call (ops c)) -> isDrawImage k = true ->
             exists i : nat,
               (i < Z.to_nat (layers st))%nat /\ k = layerCall st img i)
  /\ (inDomain oversized = true
      /\ exists c : Canvas,
           draw oversized (Some blank) = Some c
           /\ In (layerCall oversized wide 0) (map call (ops c))
           /\ rx (layerRect oversized wide 0) < 0
           /\ ry (layerRect oversized wide 0) < 0)
  /\ (inDomain overflowing = true
      /\ exists c : Canvas,
           draw overflowing (Some blank) = Some c
           /\ In (layerCall overflowing wide 0) (map call (ops c))
           /\ w (size overflowing)
              < rx (layerRect overflowing wide 0)
                + rw (layerRect overflowing wide 0)
           /\ h (size overflowing)
              < ry (layerRect overflowing wide 0)
                + rh (layerRect overflowing wide 0))
  /\ (inDomain padded = true
      /\ exists c : Canvas,
           draw padded (Some blank) = Some c
           /\ In (layerCall padded landscape 0) (map call (ops c))
           /\ ry (layerRect padded landscape 0) < 0).
Proof.
  split; [ | split; [ | split ] ].
  - intros st img canvas Himg.
    exists (drawLayers st img (Z.to_nat (layers st)) (cleared st)).
    split; [ apply draw_image; exact Himg | ].
    intros k Hin Hk. rewrite draw_image_calls in Hin.
    destruct Hin as [<-|Hin]; [ discriminate Hk | ].
    apply in_map_iff in Hin. destruct Hin as (i & <- & Hi).
    exists i. split; [ | reflexivity ].
    generalize (Z.to_nat (layers st)) Hi. clear.
    intros n. induction n as [|n IH]; simpl; [ tauto | ].
    intros [->|H]; [ lia | apply IH in H; lia ].
  - split; [ reflexivity | ].
    eexists. split; [ apply (draw_image oversized wide); reflexivity | ].
    split; [ apply drawn_layer_in; vm_compute; lia | ].
    split; vm_compute; reflexivity.
  - split; [ reflexivity | ].
    eexists. split; [ apply (draw_image overflowing wide); reflexivity | ].
    split; [ apply drawn_layer_in; vm_compute; lia | ].
    split; vm_compute; reflexivity.
  - split; [ reflexivity | ].
    eexists. split; [ apply (draw_image padded landscape); reflexivity | ].
    split; [ apply drawn_layer_in; vm_compute; lia | ].
    vm_compute; reflexivity.
Qed.

(** ** The centre anchor *)

Lemma drawW_pos (st : AppState) (img : Image) :
  0 < width img -> 0 < height img ->
  0 < baseScalePct st -> 0 < w (size st) -> 0 < h (size st) ->
  0 < drawW st img /\ 0 < drawH st img.
Proof.
  intros Hiw Hih Hb Hcw Hch.
  pose proof (imgRatio_pos img Hiw Hih) as Hr.
  assert (Ht : 0 < baseTarget st).
  { unfold baseTarget, shortest.
    apply Qmult_lt_0_compat.
    - apply Qlt_shift_div_l; [ reflexivity | lra ].
    - apply Q.min_glb_lt; assumption. }
  unfold drawW, drawH.
  destruct (Qle_bool 1 (imgRatio img)); split;
    try exact Ht;
    [ apply Qmult_lt_0_compat; assumption
    | apply Qlt_shift_div_l; [ exact Hr | lra ] ].
Qed.

Lemma centre_at_c (st : AppState) (img : Image) (i : nat) :
  anchor st = "c"%string ->
  pointEq (Spec.centre (layerRect st img i))
    (w (size st) / 2 + dir st * gapPx st img * inject_Z (Z.of_nat i),
     h (size st) / 2 + yStepPx st img * inject_Z (Z.of_nat i)).
Proof.
  intros Ha. unfold pointEq, Spec.centre, layerRect. simpl.
  rewrite layerX_correction, layerY_correction.
  unfold unadjustedX, unadjustedY, startX, startY, JS.includes, JS.seq.
  rewrite Ha. simpl. split; field.
Qed.

Lemma dir_unit (st : AppState) : dir st == 1 \/ dir st == -1.
Proof.
  unfold dir. destruct (JS.seq (direction st) "right");
    [ left | right ]; reflexivity.
Qed.

Lemma single_layer_common (st : AppState) (img : Image) :
  (repeats st <= 1)%Z -> commonCentre st img.
Proof.
  intros H i j Hi Hj.
  assert (Hl : layers st = 1%Z) by (unfold layers, JS.maxZ, JS.minZ; lia).
  rewrite Hl in Hi, Hj.
  replace i with O by lia. replace j with O by lia.
  split; reflexivity.
Qed.

(** C7 as stated fails twice.  With a repeat count of 1, inside the
    documented ranges, the only layer is its own common centre although the
    gap is -18.  And the code computes in binary64: at a base scale of 28
    percent the centre of layer 0 is not the centre of the canvas. *)
Lemma centre_claim_fails :
  (inDomain centredSingle = true
   /\ anchor centredSingle = "c"%string
   /\ ~ (commonCentre centredSingle landscape
         <-> gapPct centredSingle == 0 /\ yOffsetPct centredSingle == 0))
  /\ (inDomain centredSmall = true
      /\ anchor centredSmall = "c"%string
      /\ exists p : Q * Q,
           Binary64.centre0 centredSmall landscape = Some p
           /\ ~ fst p == w (size centredSmall) / 2).
Proof.
  split.
  - split; [ reflexivity | ].
    split; [ reflexivity | ].
    intros [Hif _].
    destruct (Hif (single_layer_common centredSingle landscape
                     ltac:(vm_compute; discriminate))) as [Hg _].
    vm_compute in Hg. discriminate Hg.
  - split; [ reflexivity | ].
    split; [ reflexivity | ].
    eexists. split; [ vm_compute; reflexivity | ].
    intros H. vm_compute in H. discriminate H.
Qed.

(** C7, as the code has it. With the centre anchor, for every gap, offset
    and scale step, layer 0 is drawn with the base size at half the
    canvas width less the base width, and half the canvas height less the
    base height.  Read in exact arithmetic, this puts the centre of layer 0
    at the centre of the canvas and the centre of layer [i] at that point
    moved by [i] times the two steps; so, in exact arithmetic, a single
    layer is its own common centre whatever the gap, and when at least two
    layers are drawn (and the image, the canvas and the base scale are
    positive) all layers have one centre if and only if the gap and the
    vertical offset are both 0.  The code computes in binary64 and meets
    these equalities of centres up to rounding only: at a base scale of 28
    percent the centre of layer 0 is within 10^-12 of the canvas centre. *)
Theorem centre_anchor
  (st : AppState) (img : Image) (Ha : anchor st = "c"%string) :
  rectEq (layerRect st img 0)
    {| rx := (w (size st) - drawW st img) / 2;
       ry := (h (size st) - drawH st img) / 2;
       rw := drawW st img;
       rh := drawH st img |}
  /\ pointEq (Spec.centre (layerRect st img 0))
             (w (size st) / 2, h (size st) / 2)
  /\ (forall i : nat,
        pointEq (Spec.centre (layerRect st img i))
          (w (size st) / 2
           + (if String.eqb (direction st) "right" then 1 else -1)
             * (gapPct st / 100 * drawW st img) * inject_Z (Z.of_nat i),
           h (size st) / 2
           + (yOffsetPct st / 100 * drawH st img) * inject_Z (Z.of_nat i)))
  /\ ((repeats st <= 1)%Z -> commonCentre st img)
  /\ (0 < width img -> 0 < height img -> 0 < baseScalePct st ->
      0 < w (size st) -> 0 < h (size st) -> (2 <= repeats st)%Z ->
      (commonCentre st img <-> gapPct st == 0 /\ yOffsetPct st == 0))
  /\ (exists p : Q * Q,
        Binary64.centre0 centredSmall landscape = Some p
        /\ Qabs (fst p - w (size centredSmall) / 2) <= 1 # 1000000000000
        /\ Qabs (snd p - h (size centredSmall) / 2) <= 1 # 1000000000000).
Proof.
  assert (Hcentre : forall i : nat,
            pointEq (Spec.centre (layerRect st img i))
              (w (size st) / 2
               + dir st * gapPx st img * inject_Z (Z.of_nat i),
               h (size st) / 2
               + yStepPx st img * inject_Z (Z.of_nat i)))
    by (intros i; apply centre_at_c; exact Ha).
  split.
  { apply rectEq_trans with (baseRect st img); [ apply layer0_is_base | ].
    unfold rectEq, baseRect, startX, startY, JS.includes, JS.seq. simpl.
    rewrite Ha. simpl. repeat split; reflexivity. }
  split.
  { destruct (Hcentre 0%nat) as [Hx Hy]. simpl in Hx, Hy.
    split; simpl.
    - rewrite Hx. change (inject_Z 0) with 0. ring.
    - rewrite Hy. change (inject_Z 0) with 0. ring. }
  split; [ exact Hcentre | ].
  split; [ apply single_layer_common | ].
  split.
  { intros Hiw Hih Hb Hcw Hch Hn.
    destruct (drawW_pos st img Hiw Hih Hb Hcw Hch) as [Hdw Hdh].
    split.
    - intros Hc.
      assert (H0 : (Z.of_nat 0 < layers st)%Z)
        by (unfold layers, JS.maxZ, JS.minZ; lia).
      assert (H1 : (Z.of_nat 1 < layers st)%Z)
        by (unfold layers, JS.maxZ, JS.minZ; lia).
      destruct (Hc 1%nat 0%nat H1 H0) as [Hx Hy].
      destruct (Hcentre 1%nat) as [Kx Ky].
      destruct (Hcentre 0%nat) as [Lx Ly].
      rewrite Kx, Lx in Hx. rewrite Ky, Ly in Hy.
      simpl in Hx, Hy.
      change (inject_Z 1) with 1 in Hx, Hy.
      change (inject_Z 0) with 0 in Hx, Hy.
      assert (Hg : gapPx st img == 0).
      { destruct (dir_unit st) as [Hd|Hd]; rewrite Hd in Hx; lra. }
      assert (Hv : yStepPx st img == 0) by lra.
      unfold gapPx in Hg. unfold yStepPx in Hv.
      split.
      + destruct (Qmult_integral _ _ Hg) as [Hz|Hz]; [ | lra ].
        apply (Qmult_inj_r _ _ (/ 100)); [ discriminate | ].
        unfold Qdiv in Hz. rewrite Hz. ring.
      + destruct (Qmult_integral _ _ Hv) as [Hz|Hz]; [ | lra ].
        apply (Qmult_inj_r _ _ (/ 100)); [ discriminate | ].
        unfold Qdiv in Hz. rewrite Hz. ring.
    - intros [Hg Hv] i j _ _.
      destruct (Hcentre i) as [Kx Ky].
      destruct (Hcentre j) as [Lx Ly].
      split; simpl in *.
      + rewrite Kx, Lx. unfold gapPx. rewrite Hg. field.
      + rewrite Ky, Ly. unfold yStepPx. rewrite Hv. field. }
  eexists. split; [ vm_compute; reflexivity | ].
  split; vm_compute; discriminate.
Qed.

Lemma centre_anchor_witness :
  commonCentre centredAligned landscape
  /\ ~ commonCentre centredStack landscape.
Proof.
  split.
  - destruct (centre_anchor centredAligned landscape eq_refl)
      as (_ & _ & _ & _ & Hiff & _).
    apply Hiff; try reflexivity.
    + vm_compute. discriminate.
    + split; reflexivity.
  - intros Hc.
    destruct (centre_anchor centredStack landscape eq_refl)
      as (_ & _ & _ & _ & Hiff & _).
    apply Hiff in Hc; try reflexivity.
    + destruct Hc as [Hg _]. vm_compute in Hg. discriminate Hg.
    + vm_compute. discriminate.
Defined.

(** ** Decode failure *)

Lemma Qeq_bool_refl (q : Q) : Qeq_bool q q = true.
Proof. apply Qeq_eq_bool. reflexivity. Qed.

Lemma sameDeps_setImgURL (u : option string) (s : AppState) :
  sameDeps s (setImgURL u s) = true.
Proof.
  unfold sameDeps. simpl.
  rewrite !String.eqb_refl, !Qeq_bool_refl, Z.eqb_refl.
  destruct (imgObj s) as [i|]; simpl;
    [ rewrite String.eqb_refl; reflexivity | reflexivity ].
Qed.

Lemma sameDeps_onerror (s : AppState) :
  sameDeps s (setImgURL None (setImgObj None s))
  = match imgObj s with None => true | Some _ => false end.
Proof.
  unfold sameDeps. simpl.
  rewrite !String.eqb_refl, !Qeq_bool_refl, Z.eqb_refl.
  destruct (imgObj s); reflexivity.
Qed.

Lemma onFile_failure (wd : World) (f : File) :
  decoded f = None ->
  onFile (Some f) wd
  = onerror {| state := setImgURL (Some (url f)) (state wd);
               canvasRef := canvasRef wd |}.
Proof.
  intros Hf. unfold onFile. rewrite Hf. f_equal.
  unfold update. rewrite sameDeps_setImgURL. reflexivity.
Qed.

(** C3 as stated fails: after an image was loaded and drawn, an upload that
    does not decode leaves a surface that differs from the previous one and
    holds the background fill only. *)
Lemma failed_upload_clears_surface :
  imgObj (state loaded) = Some landscape
  /\ (exists c : Canvas,
        canvasRef loaded = Some c
        /\ In (layerCall (state loaded) landscape 0) (map call (ops c)))
  /\ canvasRef failedAfterLoaded <> canvasRef loaded
  /\ exists c : Canvas,
       canvasRef failedAfterLoaded = Some c
       /\ map call (ops c) = [background (state loaded)].
Proof.
  split; [ reflexivity | ].
  split; [ eexists; split; [ reflexivity | ] | split ].
  - right. right. right. left. reflexivity.
  - intros H. vm_compute in H. discriminate H.
  - eexists. split; reflexivity.
Qed.

(** C3, as the code has it. When the bytes of a chosen file do not decode,
    the component ends with no image and no URL.  If no image was loaded
    before, the surface is left as it was.  If an image was loaded, [draw]
    runs again for the state without image: a mounted canvas then holds the
    background fill only, and every pixel has the background colour. *)
Theorem decode_failure_resets
  (wd : World) (f : File) (Hf : decoded f = None) :
  imgObj (state (onFile (Some f) wd)) = None
  /\ imgURL (state (onFile (Some f) wd)) = None
  /\ (imgObj (state wd) = None ->
      canvasRef (onFile (Some f) wd) = canvasRef wd)
  /\ (forall img : Image,
        imgObj (state wd) = Some img ->
        canvasRef (onFile (Some f) wd)
        = draw (state (onFile (Some f) wd)) (canvasRef wd)
        /\ forall c : Canvas,
             canvasRef wd = Some c ->
             exists c' : Canvas,
               canvasRef (onFile (Some f) wd) = Some c'
               /\ map call (ops c') = [background (state wd)]
               /\ forall px py : Z,
                    onCanvas c' px py ->
                    pixel c' px py = Solid (bg (state wd))).
Proof.
  rewrite (onFile_failure wd f Hf).
  unfold onerror, update. simpl state. simpl canvasRef.
  rewrite sameDeps_onerror. simpl imgObj. simpl imgURL.
  split; [ reflexivity | ].
  split; [ reflexivity | ].
  split.
  - intros H. rewrite H. reflexivity.
  - intros img H. rewrite H. split; [ reflexivity | ].
    intros c Hc. rewrite Hc.
    destruct (background_free (state wd) c) as (c' & Hd & Hcalls & Hpix).
    exists c'. split; [ exact Hd | ]. split; assumption.
Qed.

(** ** The theorems at the scenarios *)

Lemma layer0_at_start_witness :
  In (anchor scenarioA) (map key ANCHORS)
  /\ rectEq (layerRect scenarioA landscape 0) (baseRect scenarioA landscape).
Proof.
  assert (Ha : In (anchor scenarioA) (map key ANCHORS)).
  { right. right. right. left. reflexivity. }
  split; [ exact Ha | ].
  exact (proj1 (proj2 (layer0_at_start scenarioA landscape Ha))).
Defined.

Lemma layer_position_witness :
  imgObj scenarioA = Some landscape
  /\ (Z.of_nat 1 < layers scenarioA)%Z
  /\ exists c : Canvas,
       draw scenarioA (Some blank) = Some c
       /\ In (DrawImage landscape
                {| rx := layerX scenarioA landscape 1;
                   ry := layerY scenarioA landscape 1;
                   rw := wI scenarioA landscape 1;
                   rh := hI scenarioA landscape 1 |})
             (map call (ops c)).
Proof.
  split; [ reflexivity | ].
  split; [ reflexivity | ].
  exact (proj1 (proj2 (proj2 (proj2
           (layer_position scenarioA landscape 1))))
         blank eq_refl eq_refl).
Defined.

Lemma scale_sequence_witness :
  scaleAt scenarioA 2 <= scaleAt scenarioA 1.
Proof.
  assert (Hij : (1 <= 2)%nat) by (apply le_S, le_n).
  assert (Hs : 0 <= stepScale scenarioA) by discriminate.
  apply (proj1 (proj2 (proj2 (proj2
           (scale_sequence scenarioA landscape 1 2 Hij Hs))))).
  discriminate.
Defined.

Lemma layer_count_witness :
  imgObj scenarioA = Some landscape
  /\ exists c : Canvas,
       draw scenarioA (Some blank) = Some c
       /\ Z.of_nat (List.length (filter isDrawImage (map call (ops c))))
          = Spec.clamp 3 1 6.
Proof.
  split; [ reflexivity | ].
  exact (proj1 (layer_count scenarioA landscape blank eq_refl)).
Defined.

Lemma base_size_witness :
  Qmin (drawW scenarioC portrait) (drawH scenarioC portrait)
  == baseTarget scenarioC.
Proof.
  assert (Hiw : 0 < width portrait) by reflexivity.
  assert (Hih : 0 < height portrait) by reflexivity.
  assert (Hb : 0 <= baseScalePct scenarioC) by discriminate.
  assert (Hcw : 0 <= w (size scenarioC)) by discriminate.
  assert (Hch : 0 <= h (size scenarioC)) by discriminate.
  exact (proj1 (proj2 (proj2 (proj2
           (base_size scenarioC portrait Hiw Hih Hb Hcw Hch))))).
Defined.

Lemma background_only_witness :
  imgObj initialState = None
  /\ exists c : Canvas,
       draw initialState (Some blank) = Some c
       /\ map call (ops c) = [background initialState]
       /\ forall px py : Z,
            onCanvas c px py -> pixel c px py = Solid (bg initialState).
Proof.
  split; [ reflexivity | ].
  exact (background_only initialState blank eq_refl).
Defined.

Lemma back_to_front_witness :
  imgObj scenarioA = Some landscape
  /\ exists c : Canvas,
       draw scenarioA (Some blank) = Some c
       /\ map call (ops c)
          = [ background scenarioA;
              layerCall scenarioA landscape 2;
              layerCall scenarioA landscape 1;
              layerCall scenarioA landscape 0 ].
Proof.
  split; [ reflexivity | ].
  destruct (back_to_front scenarioA landscape blank eq_refl)
    as (c & Hc & Hcalls & _).
  exists c. split; [ exact Hc | exact Hcalls ].
Defined.

Lemma positions_not_clamped_witness :
  imgObj oversized = Some wide
  /\ exists c : Canvas,
       draw oversized (Some blank) = Some c
       /\ forall k : Call,
            In k (map call (ops c)) -> isDrawImage k = true ->
            exists i : nat,
              (i < Z.to_nat (layers oversized))%nat
              /\ k = layerCall oversized wide i.
Proof.
  split; [ reflexivity | ].
  exact (proj1 positions_not_clamped oversized wide blank eq_refl).
Defined.

Lemma decode_failure_resets_witness :
  decoded badFile = None
  /\ imgObj (state loaded) = Some landscape
  /\ imgObj (state (onFile (Some badFile) loaded)) = None
  /\ exists c : Canvas,
       canvasRef (onFile (Some badFile) loaded) = Some c
       /\ map call (ops c) = [background (state loaded)].
Proof.
  split; [ reflexivity | ].
  split; [ reflexivity | ].
  destruct (decode_failure_resets loaded badFile eq_refl)
    as (Hobj & _ & _ & Hdrawn).
  split; [ exact Hobj | ].
  destruct (Hdrawn landscape eq_refl) as (_ & Hc).
  destruct (Hc _ eq_refl) as (c' & Hc' & Hcalls & _).
  exists c'. split; [ exact Hc' | exact Hcalls ].
Defined.

(** ** More about the layer geometry *)

Lemma scaleAt_full (st : AppState) (i : nat) :
  stepScale st == 100 -> scaleAt st i == 1.
Proof.
  intros H. unfold scaleAt, scaleStep. rewrite H.
  setoid_replace (100 / 100) with 1 by reflexivity.
  apply Qpower_1.
Qed.

(** With a scale step of 100 every layer has the size of the base
    rectangle and is the base rectangle moved by the index times the two
    steps, whatever the anchor. *)
Theorem full_scale_translates
  (st : AppState) (img : Image) (i : nat) (Hs : stepScale st == 100) :
  rectEq (layerRect st img i)
    {| rx := startX st img + dir st * gapPx st img * inject_Z (Z.of_nat i);
       ry := startY st img + yStepPx st img * inject_Z (Z.of_nat i);
       rw := drawW st img;
       rh := drawH st img |}.
Proof.
  pose proof (scaleAt_full st i Hs) as H1.
  assert (Hw : wI st img i == drawW st img) by (unfold wI; rewrite H1; ring).
  assert (Hh : hI st img i == drawH st img) by (unfold hI; rewrite H1; ring).
  unfold rectEq, layerRect. simpl.
  split; [ | split; [ | split; assumption ] ].
  - rewrite layerX_correction. unfold unadjustedX.
    rewrite correction_0; [ ring | rewrite Hw; ring ].
  - rewrite layerY_correction. unfold unadjustedY.
    rewrite correction_0; [ ring | rewrite Hh; ring ].
Qed.

(** Growing left with a gap is growing right with the opposite gap: every
    direction other than ["right"] mirrors the horizontal step and nothing
    else. *)
Theorem left_is_negated_gap
  (st : AppState) (img : Image) (i : nat) (d : string)
  (Hr : direction st = "right"%string) (Hd : d <> "right"%string) :
  rectEq (layerRect (setDirection d (setGapPct (- gapPct st) st)) img i)
         (layerRect st img i).
Proof.
  assert (Hdir : dir st = 1).
  { unfold dir, JS.seq. rewrite Hr. reflexivity. }
  assert (Hdir' : dir (setDirection d (setGapPct (- gapPct st) st)) = -1).
  { unfold dir, JS.seq. simpl.
    apply String.eqb_neq in Hd. rewrite Hd. reflexivity. }
  unfold rectEq, layerRect. simpl.
  split; [ | split; [ | split; reflexivity ] ].
  - rewrite !layerX_correction. unfold unadjustedX.
    rewrite Hdir, Hdir'. unfold gapPx. simpl.
    change (drawW (setDirection d (setGapPct (- gapPct st) st)) img)
      with (drawW st img).
    change (startX (setDirection d (setGapPct (- gapPct st) st)) img)
      with (startX st img).
    change (wI (setDirection d (setGapPct (- gapPct st) st)) img i)
      with (wI st img i).
    field.
  - rewrite !layerY_correction. reflexivity.
Qed.

(** ** The pixel density and the bitmap *)

Lemma sameDeps_inv (a b : AppState) :
  sameDeps a b = true ->
  bg a = bg b
  /\ Qeq_bool (w (size a)) (w (size b)) = true
  /\ Qeq_bool (h (size a)) (h (size b)) = true
  /\ direction a = direction b
  /\ repeats a = repeats b
  /\ Qeq_bool (gapPct a) (gapPct b) = true
  /\ Qeq_bool (stepScale a) (stepScale b) = true
  /\ Qeq_bool (yOffsetPct a) (yOffsetPct b) = true
  /\ anchor a = anchor b
  /\ Qeq_bool (padding a) (padding b) = true
  /\ Qeq_bool (baseScalePct a) (baseScalePct b) = true
  /\ sameImage (imgObj a) (imgObj b) = true
  /\ Qeq_bool (dpiScale a) (dpiScale b) = true.
Proof.
  unfold sameDeps. rewrite !andb_true_iff.
  rewrite !String.eqb_eq, Z.eqb_eq. tauto.
Qed.

Lemma clampDpr_range (d : option Q) : 1 <= clampDpr d /\ clampDpr d <= 2.
Proof.
  unfold clampDpr. split; [ apply Q.le_max_l | ].
  apply Q.max_lub; [ discriminate | apply Q.le_min_l ].
Qed.

(** The density the effect stores is always between 1 and 2: a reported
    ratio inside that range is kept, a larger one gives 2, and a smaller
    one, the ratio 0 and a missing ratio give 1. *)
Theorem density_clamped (d : option Q) :
  (1 <= clampDpr d /\ clampDpr d <= 2)
  /\ (forall q : Q, d = Some q -> 1 <= q -> q <= 2 -> clampDpr d == q)
  /\ (forall q : Q, d = Some q -> 2 <= q -> clampDpr d == 2)
  /\ (forall q : Q, d = Some q -> q <= 1 -> clampDpr d == 1)
  /\ (d = None -> clampDpr d == 1).
Proof.
  split; [ apply clampDpr_range | ].
  split; [ | split; [ | split ] ].
  - intros q -> H1 H2. unfold clampDpr.
    destruct (Qeq_bool q 0) eqn:E; [ apply Qeq_bool_iff in E; lra | ].
    rewrite (Q.min_r 2 q H2). apply Q.max_r. exact H1.
  - intros q -> H2. unfold clampDpr.
    destruct (Qeq_bool q 0) eqn:E; [ apply Qeq_bool_iff in E; lra | ].
    rewrite (Q.min_l 2 q H2). reflexivity.
  - intros q -> H1. unfold clampDpr.
    destruct (Qeq_bool q 0) eqn:E; [ reflexivity | ].
    rewrite (Q.min_r 2 q) by lra. apply Q.max_l. exact H1.
  - intros ->. reflexivity.
Qed.

Lemma draw_rendered (st : AppState) (canvas : Canvas) :
  draw st (Some canvas) = Some (rendered st).
Proof.
  unfold rendered. destruct (imgObj st) as [img|] eqn:E.
  - apply draw_image. exact E.
  - apply draw_no_image. exact E.
Qed.

Lemma rendered_frame (st : AppState) :
  cwidth (rendered st) = Qfloor (w (size st) * dpiScale st)
  /\ cheight (rendered st) = Qfloor (h (size st) * dpiScale st)
  /\ transform (rendered st) = dpiScale st.
Proof.
  unfold rendered. destruct (imgObj st) as [img|]; [ | auto ].
  apply (drawLayers_frame st img (Z.to_nat (layers st)) (cleared st)).
Qed.

(** After the density effect the bitmap of a surface that follows the
    state is at least the logical size and at most twice it, in width and
    in height; it is the logical size when the clamped density is 1 (a
    missing ratio, the ratio 0 or a ratio of at most 1) and twice the
    logical size when it is 2 (a ratio of 2 or more). *)
Theorem bitmap_size
  (wd : World) (d : option Q)
  (Hs : inSync wd)
  (Hw : 0 <= w (size (state wd))) (Hh : 0 <= h (size (state wd))) :
  exists c : Canvas,
    canvasRef (dprEffect d wd) = Some c
    /\ (Qfloor (w (size (state wd))) <= cwidth c
        <= Qfloor (2 * w (size (state wd))))%Z
    /\ (Qfloor (h (size (state wd))) <= cheight c
        <= Qfloor (2 * h (size (state wd))))%Z
    /\ (clampDpr d == 1 ->
        cwidth c = Qfloor (w (size (state wd)))
        /\ cheight c = Qfloor (h (size (state wd))))
    /\ (clampDpr d == 2 ->
        cwidth c = Qfloor (2 * w (size (state wd)))
        /\ cheight c = Qfloor (2 * h (size (state wd)))).
Proof.
  destruct (clampDpr_range d) as [H1 H2].
  assert (Hdims : exists c : Canvas,
            canvasRef (dprEffect d wd) = Some c
            /\ cwidth c = Qfloor (w (size (state wd)) * clampDpr d)
            /\ cheight c = Qfloor (h (size (state wd)) * clampDpr d)).
  { unfold dprEffect, update. cbn [canvasRef].
    unfold inSync in Hs. rewrite Hs, !draw_rendered.
    destruct (sameDeps (state wd) (setDpiScale (clampDpr d) (state wd)))
      eqn:E.
    - apply sameDeps_inv in E.
      destruct E as (_ & _ & _ & _ & _ & _ & _ & _ & _ & _ & _ & _ & Hd).
      cbn [setDpiScale dpiScale] in Hd. apply Qeq_bool_iff in Hd.
      exists (rendered (state wd)). split; [ reflexivity | ].
      destruct (rendered_frame (state wd)) as (Hcw & Hch & _).
      rewrite Hcw, Hch, Hd. auto.
    - exists (rendered (setDpiScale (clampDpr d) (state wd))).
      split; [ reflexivity | ].
      destruct (rendered_frame (setDpiScale (clampDpr d) (state wd)))
        as (Hcw & Hch & _).
      auto. }
  destruct Hdims as (c & Hc & Hcw & Hch).
  exists c. split; [ exact Hc | ].
  rewrite Hcw, Hch.
  split; [ split; apply Qfloor_resp_le; nra | ].
  split; [ split; apply Qfloor_resp_le; nra | ].
  split; intros Hd; rewrite Hd; split; apply Qfloor_comp; ring.
Qed.

(** [draw] repaints everything: what it leaves does not depend on what the
    canvas held, so drawing a state after any other state is drawing it
    on a fresh canvas, and drawing twice is drawing once. *)
Theorem draw_replaces
  (st st' : AppState) (c1 c2 : Canvas) :
  draw st (Some c1) = draw st (Some c2)
  /\ draw st' (draw st (Some c1)) = draw st' (Some c2)
  /\ draw st (draw st (Some c1)) = draw st (Some c1).
Proof.
  rewrite !draw_rendered. auto.
Qed.

(** ** Which layer a pixel shows *)

Lemma paint_outside (l : list Op) (p : Paint) (px py : Z) :
  (forall o : Op, In o l -> coverage o px py = Outside) ->
  fold_left (fun under o => paintOver under o px py) l p = p.
Proof.
  revert p. induction l as [|o l IH]; intros p H; simpl; [ reflexivity | ].
  unfold paintOver at 2. rewrite (H o (or_introl eq_refl)).
  apply IH. intros o' Ho'. apply H. right. exact Ho'.
Qed.

Lemma countdown_below (n j : nat) : In j (countdown n) -> (j < n)%nat.
Proof.
  induction n as [|n IH]; simpl; [ tauto | ].
  intros [->|H]; [ lia | apply IH in H; lia ].
Qed.

Lemma countdown_split (n i : nat) :
  (i < n)%nat -> exists l, countdown n = l ++ i :: countdown i.
Proof.
  induction n as [|n IH]; intros Hi; [ lia | ].
  destruct (Nat.eq_dec i n) as [->|Hne].
  - exists []. reflexivity.
  - destruct IH as [l Hl]; [ lia | ].
    exists (n :: l). simpl. rewrite Hl. reflexivity.
Qed.

Lemma rendered_ops (st : AppState) (img : Image) :
  imgObj st = Some img ->
  ops (rendered st)
  = {| call := background st; ctm := dpiScale st |}
    :: map (layerOp st img (dpiScale st)) (countdown (Z.to_nat (layers st))).
Proof.
  intros H. unfold rendered. rewrite H, drawLayers_ops. reflexivity.
Qed.

(** A pixel shows the nearest layer that covers it: when layer [i] covers
    it whole and the layers in front of it (the lower indices) do not
    touch it, it shows the image as layer [i] drew it, whatever the layers
    behind do. *)
Theorem nearest_layer_shows
  (st : AppState) (img : Image) (canvas : Canvas) (i : nat) (px py : Z)
  (Himg : imgObj st = Some img)
  (Hi : (Z.of_nat i < layers st)%Z)
  (Hcov : coverage (layerOp st img (dpiScale st) i) px py = Full)
  (Hfront : forall j : nat,
      (j < i)%nat ->
      coverage (layerOp st img (dpiScale st) j) px py = Outside) :
  exists c : Canvas,
    draw st (Some canvas) = Some c
    /\ pixel c px py = Sampled img (layerRect st img i).
Proof.
  exists (rendered st). split; [ apply draw_rendered | ].
  unfold pixel. rewrite (rendered_ops st img Himg).
  destruct (countdown_split (Z.to_nat (layers st)) i) as [l Hl]; [ lia | ].
  rewrite Hl, map_app. simpl. rewrite fold_left_app. simpl.
  rewrite paint_outside.
  - unfold paintOver at 1. rewrite Hcov. reflexivity.
  - intros o Ho. apply in_map_iff in Ho. destruct Ho as (j & <- & Hj).
    apply Hfront. apply countdown_below. exact Hj.
Qed.

(** A pixel of the bitmap that no layer touches keeps the background
    colour. *)
Theorem untouched_pixel_is_background
  (st : AppState) (img : Image) (canvas : Canvas) (px py : Z)
  (Himg : imgObj st = Some img)
  (Hon : onCanvas (rendered st) px py)
  (Hout : forall j : nat,
      (Z.of_nat j < layers st)%Z ->
      coverage (layerOp st img (dpiScale st) j) px py = Outside) :
  exists c : Canvas,
    draw st (Some canvas) = Some c /\ pixel c px py = Solid (bg st).
Proof.
  exists (rendered st). split; [ apply draw_rendered | ].
  unfold pixel. rewrite (rendered_ops st img Himg). simpl.
  rewrite paint_outside.
  - assert (Hbg : pixel (cleared st) px py = Solid (bg st)).
    { apply cleared_pixel.
      destruct (rendered_frame st) as (Hcw & Hch & _).
      destruct Hon as [Hx Hy]. rewrite Hcw in Hx. rewrite Hch in Hy.
      split; assumption. }
    exact Hbg.
  - intros o Ho. apply in_map_iff in Ho. destruct Ho as (j & <- & Hj).
    apply Hout. apply countdown_below in Hj. lia.
Qed.

(** ** The surface follows the state *)

Lemma integral_eq (a : Q) (v : Z) :
  integral a -> Qeq_bool a (inject_Z v) = true -> inject_Z v = a.
Proof.
  destruct a as [n d]. unfold integral, Qeq_bool, inject_Z. simpl.
  intros -> H. apply Z.eqb_eq in H. f_equal. lia.
Qed.

Lemma sizes_distinct (a b : Size) :
  In a SIZES -> In b SIZES ->
  Qeq_bool (w a) (w b) = true -> Qeq_bool (h a) (h b) = true -> a = b.
Proof.
  simpl.
  intros [<-|[<-|[<-|[<-|[]]]]] [<-|[<-|[<-|[<-|[]]]]] Hw Hh;
    try reflexivity; vm_compute in Hw, Hh; discriminate.
Qed.

Lemma find_size_option (v : string) (next : string * Size) :
  find (fun s => String.eqb (fst s) v) sizeOptions = Some next ->
  In next sizeOptions /\ fst next = v /\ In (snd next) SIZES.
Proof.
  intros H. apply find_some in H. destruct H as [Hin Hv].
  apply String.eqb_eq in Hv. split; [ exact Hin | split; [ exact Hv | ] ].
  destruct next as [lbl sz]. unfold sizeOptions in Hin.
  apply in_combine_r in Hin. exact Hin.
Qed.

Lemma update_inSync (f : AppState -> AppState) (wd : World) :
  inSync wd ->
  (sameDeps (state wd) (f (state wd)) = true ->
   rendered (f (state wd)) = rendered (state wd)) ->
  inSync (update f wd).
Proof.
  unfold inSync, update. intros Hs Hsame. cbn [state canvasRef].
  destruct (sameDeps (state wd) (f (state wd))) eqn:E.
  - rewrite Hs, !draw_rendered, (Hsame eq_refl). reflexivity.
  - rewrite Hs, !draw_rendered. reflexivity.
Qed.

Lemma onFile_inSync (file : option File) (wd : World) :
  inSync wd -> fresh (ChooseFile file) wd -> inSync (onFile file wd).
Proof.
  intros Hs Hf. destruct file as [f|]; [ | exact Hs ].
  unfold onFile.
  assert (H1 : inSync (update (setImgURL (Some (url f))) wd)).
  { apply update_inSync; [ exact Hs | reflexivity ]. }
  assert (Hobj : imgObj (state (update (setImgURL (Some (url f))) wd))
                 = imgObj (state wd)) by reflexivity.
  destruct (decoded f) as [[iw ih]|].
  - apply update_inSync; [ exact H1 | ].
    intros Hsame. apply sameDeps_inv in Hsame.
    destruct Hsame as (_ & _ & _ & _ & _ & _ & _ & _ & _ & _ & _ & Himg & _).
    simpl in Himg, Hf.
    destruct (imgObj (state wd)) as [old|]; [ | discriminate Himg ].
    simpl in Himg. apply String.eqb_eq in Himg. symmetry in Himg. contradiction.
  - apply update_inSync; [ exact H1 | ].
    intros Hsame. apply sameDeps_inv in Hsame.
    destruct Hsame as (_ & _ & _ & _ & _ & _ & _ & _ & _ & _ & _ & Himg & _).
    simpl in Himg. unfold rendered. simpl.
    destruct (imgObj (state wd)) as [old|]; [ discriminate Himg | reflexivity ].
Qed.

Lemma handle_inSync (e : Event) (wd : World) :
  inSync wd -> wellFormed (state wd) -> fresh e wd -> inSync (handle e wd).
Proof.
  intros Hs (Hsz & Hp & Hb & Hg & Hst & Hy) Hf.
  destruct e as [file|v|v|v|v|v|v|v|v|v|v]; simpl.
  - apply onFile_inSync; assumption.
  - unfold onSizeChange.
    destruct (find (fun s => String.eqb (fst s) v) sizeOptions)
      as [next|] eqn:E; [ | exact Hs ].
    apply find_size_option in E. destruct E as (_ & _ & Hin).
    apply update_inSync; [ exact Hs | ].
    intros Hsame. apply sameDeps_inv in Hsame.
    destruct Hsame as (_ & Hw & Hh & _). simpl in Hw, Hh.
    rewrite <- (sizes_distinct _ _ Hsz Hin Hw Hh).
    destruct (state wd); reflexivity.
  - apply update_inSync; [ exact Hs | ].
    intros Hsame. apply sameDeps_inv in Hsame.
    destruct Hsame as (_ & _ & _ & Hd & _). simpl in Hd. rewrite <- Hd.
    destruct (state wd); reflexivity.
  - apply update_inSync; [ exact Hs | ].
    intros Hsame. apply sameDeps_inv in Hsame.
    destruct Hsame as (_ & _ & _ & _ & _ & _ & _ & _ & Ha & _).
    simpl in Ha. rewrite <- Ha. destruct (state wd); reflexivity.
  - apply update_inSync; [ exact Hs | ].
    intros Hsame. apply sameDeps_inv in Hsame.
    destruct Hsame as (Hbg & _). simpl in Hbg. rewrite <- Hbg.
    destruct (state wd); reflexivity.
  - apply update_inSync; [ exact Hs | ].
    intros Hsame. apply sameDeps_inv in Hsame.
    destruct Hsame as (_ & _ & _ & _ & Hr & _). simpl in Hr. rewrite <- Hr.
    destruct (state wd); reflexivity.
  - apply update_inSync; [ exact Hs | ].
    intros Hsame. apply sameDeps_inv in Hsame.
    destruct Hsame as (_ & _ & _ & _ & _ & _ & _ & _ & _ & H & _).
    simpl in H. rewrite (integral_eq _ _ Hp H).
    destruct (state wd); reflexivity.
  - apply update_inSync; [ exact Hs | ].
    intros Hsame. apply sameDeps_inv in Hsame.
    destruct Hsame as (_ & _ & _ & _ & _ & _ & _ & _ & _ & _ & H & _).
    simpl in H. rewrite (integral_eq _ _ Hb H).
    destruct (state wd); reflexivity.
  - apply update_inSync; [ exact Hs | ].
    intros Hsame. apply sameDeps_inv in Hsame.
    destruct Hsame as (_ & _ & _ & _ & _ & H & _).
    simpl in H. rewrite (integral_eq _ _ Hg H).
    destruct (state wd); reflexivity.
  - apply update_inSync; [ exact Hs | ].
    intros Hsame. apply sameDeps_inv in Hsame.
    destruct Hsame as (_ & _ & _ & _ & _ & _ & H & _).
    simpl in H. rewrite (integral_eq _ _ Hst H).
    destruct (state wd); reflexivity.
  - apply update_inSync; [ exact Hs | ].
    intros Hsame. apply sameDeps_inv in Hsame.
    destruct Hsame as (_ & _ & _ & _ & _ & _ & _ & H & _).
    simpl in H. rewrite (integral_eq _ _ Hy H).
    destruct (state wd); reflexivity.
Qed.

Lemma onFile_config (file : option File) (wd : World) :
  size (state (onFile file wd)) = size (state wd)
  /\ padding (state (onFile file wd)) = padding (state wd)
  /\ baseScalePct (state (onFile file wd)) = baseScalePct (state wd)
  /\ gapPct (state (onFile file wd)) = gapPct (state wd)
  /\ stepScale (state (onFile file wd)) = stepScale (state wd)
  /\ yOffsetPct (state (onFile file wd)) = yOffsetPct (state wd).
Proof.
  destruct file as [f|]; [ | repeat split ].
  unfold onFile. destruct (decoded f) as [[iw ih]|]; repeat split.
Qed.

Lemma handle_wellFormed (e : Event) (wd : World) :
  wellFormed (state wd) -> wellFormed (state (handle e wd)).
Proof.
  intros (Hsz & Hp & Hb & Hg & Hst & Hy).
  destruct e as [file|v|v|v|v|v|v|v|v|v|v]; cbn [handle].
  - unfold wellFormed.
    destruct (onFile_config file wd) as (-> & -> & -> & -> & -> & ->).
    repeat split; assumption.
  - unfold onSizeChange.
    destruct (find (fun s => String.eqb (fst s) v) sizeOptions)
      as [next|] eqn:E; [ | repeat split; assumption ].
    apply find_size_option in E. destruct E as (_ & _ & Hin).
    repeat split; assumption.
  - repeat split; assumption.
  - repeat split; assumption.
  - repeat split; assumption.
  - repeat split; assumption.
  - repeat split; assumption || reflexivity.
  - repeat split; assumption || reflexivity.
  - repeat split; assumption || reflexivity.
  - repeat split; assumption || reflexivity.
  - repeat split; assumption || reflexivity.
Qed.

(** Whatever the user does, the surface is what [draw] gives for the state
    the component ends in: no event leaves a stale picture.  The numbers of
    the state stay integers and the size stays one of the presets. *)
Theorem surface_follows_state
  (es : list Event) (wd : World)
  (Hs : inSync wd) (Hwf : wellFormed (state wd)) (Hf : freshAll es wd) :
  inSync (run es wd) /\ wellFormed (state (run es wd)).
Proof.
  revert wd Hs Hwf Hf. unfold run.
  induction es as [|e es IH]; intros wd Hs Hwf Hf; simpl; [ auto | ].
  destruct Hf as [He Hrest].
  apply IH;
    [ apply handle_inSync; assumption
    | apply handle_wellFormed; assumption
    | exact Hrest ].
Qed.

(** ** Uploads *)

(** Choosing a file that decodes, on a mounted canvas: the state holds the
    new image and its URL, and the surface is repainted with the background
    and the layers of the new image only; nothing of an earlier image is
    left. *)
Theorem upload_shows_new_image
  (wd : World) (f : File) (iw ih : Q) (canvas : Canvas)
  (Hdec : decoded f = Some (iw, ih))
  (Hfresh : fresh (ChooseFile (Some f)) wd)
  (Hcanvas : canvasRef wd = Some canvas) :
  let img := {| src := url f; width := iw; height := ih |} in
  let after := onFile (Some f) wd in
  imgObj (state after) = Some img
  /\ imgURL (state after) = Some (url f)
  /\ exists c : Canvas,
       canvasRef after = Some c
       /\ map call (ops c)
          = background (state wd)
            :: map (layerCall (state after) img)
                 (countdown (Z.to_nat (layers (state wd)))).
Proof.
  intros img after. unfold after, onFile. rewrite Hdec.
  unfold onload, update. cbn [state canvasRef].
  rewrite sameDeps_setImgURL.
  assert (Hdiff : sameDeps (setImgURL (Some (url f)) (state wd))
                    (setImgObj (Some img)
                       (setImgURL (Some (url f)) (state wd))) = false).
  { destruct (sameDeps _ _) eqn:E; [ | reflexivity ].
    apply sameDeps_inv in E.
    destruct E as (_ & _ & _ & _ & _ & _ & _ & _ & _ & _ & _ & Himg & _).
    simpl in Himg, Hfresh.
    destruct (imgObj (state wd)) as [old|]; [ | discriminate Himg ].
    simpl in Himg. apply String.eqb_eq in Himg. symmetry in Himg.
    contradiction. }
  fold img. rewrite Hdiff, Hcanvas.
  split; [ reflexivity | split; [ reflexivity | ] ].
  eexists. split; [ apply (draw_image _ img); reflexivity | ].
  rewrite draw_image_calls. reflexivity.
Qed.

(** Until the chosen file has decoded, nothing changes on screen: the
    synchronous part of [onFile] stores the URL and leaves the image and
    the surface as they were. *)
Theorem pending_upload_keeps_surface (wd : World) (u : string) :
  canvasRef (update (setImgURL (Some u)) wd) = canvasRef wd
  /\ imgObj (state (update (setImgURL (Some u)) wd)) = imgObj (state wd)
  /\ imgURL (state (update (setImgURL (Some u)) wd)) = Some u.
Proof.
  unfold update. cbn [state canvasRef].
  rewrite sameDeps_setImgURL. repeat split.
Qed.

(** ** The size select *)

(** The size select takes the preset with the chosen label and ignores a
    value that is no label, so the size is always one of the presets. *)
Theorem size_select (v : string) (wd : World)
  (Hsz : In (size (state wd)) SIZES) :
  In (size (state (onSizeChange v wd))) SIZES
  /\ (~ In v sizeLabels -> onSizeChange v wd = wd)
  /\ (forall k : nat,
        nth_error sizeLabels k = Some v ->
        nth_error SIZES k = Some (size (state (onSizeChange v wd)))).
Proof.
  split; [ | split ].
  - unfold onSizeChange.
    destruct (find (fun s => String.eqb (fst s) v) sizeOptions)
      as [next|] eqn:E; [ | exact Hsz ].
    apply find_size_option in E. destruct E as (_ & _ & Hin). exact Hin.
  - intros Hno. unfold onSizeChange.
    destruct (find (fun s => String.eqb (fst s) v) sizeOptions)
      as [next|] eqn:E; [ | reflexivity ].
    apply find_size_option in E. destruct E as (Hin & Hv & _).
    exfalso. apply Hno. rewrite <- Hv.
    destruct next as [lbl sz]. unfold sizeOptions in Hin.
    apply in_combine_l in Hin. exact Hin.
  - intros k Hk.
    destruct k as [|[|[|[|k]]]]; simpl in Hk;
      try (injection Hk as <-; reflexivity).
    destruct k; discriminate Hk.
Qed.

(** ** Object URLs *)

Lemma onFile_imgURL (f : File) (wd : World) :
  imgURL (state (onFile (Some f) wd))
  = match decoded f with Some _ => Some (url f) | None => None end.
Proof.
  unfold onFile. destruct (decoded f) as [[iw ih]|]; reflexivity.
Qed.

Lemma revoke_other (u v : string) (live : list string) :
  u <> v -> In u live -> In u (revokeObjectURL v live).
Proof.
  intros Hne Hin. unfold revokeObjectURL. apply filter_In.
  split; [ exact Hin | ].
  apply String.eqb_neq in Hne. rewrite Hne. reflexivity.
Qed.

(** Choosing a file revokes the object URL the state held and creates the
    one of the file, which is alive afterwards.  When the URL the state
    held was the only one alive and the file decodes, the URL of the file
    is the only one alive afterwards and it is the one the state holds.
    (The URL of the file is new, and the one the state held is not the
    empty string, as [createObjectURL] makes them.) *)
Theorem upload_revokes_previous
  (b : Browser) (f : File) (prev : string)
  (Hprev : imgURL (state (page b)) = Some prev)
  (Hne : prev <> ""%string)
  (Hnew : url f <> prev) :
  ~ In prev (objectURLs (chooseFile (Some f) b))
  /\ In (url f) (objectURLs (chooseFile (Some f) b))
  /\ (tidy b -> decoded f <> None ->
      objectURLs (chooseFile (Some f) b) = [url f]
      /\ imgURL (state (page (chooseFile (Some f) b))) = Some (url f)
      /\ tidy (chooseFile (Some f) b)).
Proof.
  assert (Hlive : objectURLs (chooseFile (Some f) b)
                  = revokeObjectURL prev (url f :: objectURLs b)).
  { unfold chooseFile, createObjectURL. cbn [objectURLs].
    rewrite Hprev. apply String.eqb_neq in Hne. rewrite Hne. reflexivity. }
  split; [ | split ].
  - rewrite Hlive. unfold revokeObjectURL. intros Hin.
    apply filter_In in Hin. destruct Hin as [_ Hin].
    rewrite String.eqb_refl in Hin. discriminate Hin.
  - rewrite Hlive. apply revoke_other; [ exact Hnew | left; reflexivity ].
  - intros Htidy Hdec.
    assert (Hone : objectURLs (chooseFile (Some f) b) = [url f]).
    { rewrite Hlive. unfold tidy in Htidy. rewrite Hprev in Htidy.
      rewrite Htidy. unfold revokeObjectURL. simpl.
      apply String.eqb_neq in Hnew. rewrite Hnew, String.eqb_refl.
      reflexivity. }
    assert (Hurl : imgURL (state (page (chooseFile (Some f) b)))
                   = Some (url f)).
    { unfold chooseFile. cbn [page]. rewrite onFile_imgURL.
      destruct (decoded f); [ reflexivity | contradiction ]. }
    split; [ exact Hone | split; [ exact Hurl | ] ].
    unfold tidy. rewrite Hone, Hurl. reflexivity.
Qed.

Lemma chooseFile_keeps (u : string) (g : File) (b : Browser) :
  url g <> u ->
  In u (objectURLs b) /\ imgURL (state (page b)) <> Some u ->
  In u (objectURLs (chooseFile (Some g) b))
  /\ imgURL (state (page (chooseFile (Some g) b))) <> Some u.
Proof.
  intros Hg [Hin Hcur]. split.
  - unfold chooseFile, createObjectURL. cbn [objectURLs].
    destruct (imgURL (state (page b))) as [prev|]; [ | right; exact Hin ].
    destruct (String.eqb prev ""); [ right; exact Hin | ].
    apply revoke_other; [ | right; exact Hin ].
    intros ->. apply Hcur. reflexivity.
  - unfold chooseFile. cbn [page]. rewrite onFile_imgURL.
    destruct (decoded g); [ | discriminate ].
    intros H. injection H as H. contradiction.
Qed.

(** The URL of a file that does not decode is never revoked: after the
    failed upload the state holds no URL, the object URL is still alive,
    and it stays alive through every later upload. *)
Theorem failed_upload_leaks_url
  (b : Browser) (f : File) (later : list File)
  (Hdec : decoded f = None)
  (Hcur : imgURL (state (page b)) <> Some (url f))
  (Hlater : Forall (fun g => url g <> url f) later) :
  imgURL (state (page (chooseFile (Some f) b))) = None
  /\ In (url f) (objectURLs (chooseFile (Some f) b))
  /\ In (url f) (objectURLs (chooseFiles later (chooseFile (Some f) b))).
Proof.
  assert (Hnone : imgURL (state (page (chooseFile (Some f) b))) = None).
  { unfold chooseFile. cbn [page]. rewrite onFile_imgURL, Hdec. reflexivity. }
  assert (Hin : In (url f) (objectURLs (chooseFile (Some f) b))).
  { unfold chooseFile, createObjectURL. cbn [objectURLs].
    destruct (imgURL (state (page b))) as [prev|]; [ | left; reflexivity ].
    destruct (String.eqb prev ""); [ left; reflexivity | ].
    apply revoke_other; [ | left; reflexivity ].
    intros E. apply Hcur. rewrite E. reflexivity. }
  split; [ exact Hnone | split; [ exact Hin | ] ].
  assert (Hinv : In (url f) (objectURLs (chooseFile (Some f) b))
                 /\ imgURL (state (page (chooseFile (Some f) b)))
                    <> Some (url f)).
  { split; [ exact Hin | rewrite Hnone; discriminate ]. }
  revert Hinv. generalize (chooseFile (Some f) b).
  unfold chooseFiles.
  induction Hlater as [|g later Hg _ IH]; intros b' Hinv; simpl;
    [ exact (proj1 Hinv) | ].
  apply IH. apply chooseFile_keeps; assumption.
Qed.

(** ** Download *)

(** A download exports the surface as [draw] gives it for the current
    state, under a name that ends in [.jpg] for the type [image/jpeg] and
    in [.png] for every other type and when no type is given; without a
    canvas nothing is downloaded. *)
Theorem download_exports_state
  (wd : World) (type : option string) (Hs : inSync wd) :
  (exists l : Link,
     handleDownload type (canvasRef wd) = Some l
     /\ bitmap (href l) = rendered (state wd)
     /\ quality (href l) == 0.95
     /\ (type = Some "image/jpeg"%string ->
         download l = "newsroom-stylized.jpg"%string)
     /\ (type <> Some "image/jpeg"%string ->
         download l = "newsroom-stylized.png"%string))
  /\ handleDownload type None = None.
Proof.
  split; [ | destruct type; reflexivity ].
  unfold inSync in Hs. rewrite Hs, draw_rendered.
  unfold handleDownload. eexists. split; [ reflexivity | ].
  cbn [href bitmap quality download toDataURL].
  split; [ reflexivity | split; [ reflexivity | split ] ].
  - intros ->. reflexivity.
  - intros Hne. destruct type as [t|]; [ | reflexivity ].
    unfold JS.seq. destruct (String.eqb t "image/jpeg") eqn:E;
      [ | reflexivity ].
    apply String.eqb_eq in E. subst t. exfalso. apply Hne. reflexivity.
Qed.

(** ** The further theorems at the scenarios *)

Lemma mount_inSync : inSync mount.
Proof. reflexivity. Qed.

Lemma mount_wellFormed : wellFormed (state mount).
Proof.
  split; [ left; reflexivity | repeat split ].
Qed.

Lemma full_scale_translates_witness :
  stepScale (setStepScale 100 scenarioA) == 100
  /\ rw (layerRect (setStepScale 100 scenarioA) landscape 2)
     == drawW scenarioA landscape.
Proof.
  split; [ reflexivity | ].
  exact (proj1 (proj2 (proj2
           (full_scale_translates (setStepScale 100 scenarioA) landscape 2
              (Qeq_refl 100))))).
Defined.

Lemma left_is_negated_gap_witness :
  rectEq
    (layerRect (setDirection "left" (setGapPct (- gapPct scenarioA) scenarioA))
       landscape 1)
    (layerRect scenarioA landscape 1).
Proof.
  apply (left_is_negated_gap scenarioA landscape 1 "left");
    [ reflexivity | discriminate ].
Defined.

Lemma density_clamped_witness :
  clampDpr (Some 3) == 2 /\ clampDpr (Some (1 # 2)) == 1.
Proof.
  split.
  - apply (proj1 (proj2 (proj2 (density_clamped (Some 3)))) 3);
      [ reflexivity | discriminate ].
  - apply (proj1 (proj2 (proj2 (proj2 (density_clamped (Some (1 # 2))))))
             (1 # 2));
      [ reflexivity | discriminate ].
Defined.

Lemma bitmap_size_witness :
  exists c : Canvas,
    canvasRef (dprEffect (Some 3) mount) = Some c
    /\ cwidth c = 2400%Z /\ cheight c = 1350%Z.
Proof.
  destruct (bitmap_size mount (Some 3) mount_inSync)
    as (c & Hc & _ & _ & _ & Htwice);
    [ discriminate | discriminate | ].
  exists c. split; [ exact Hc | ].
  apply Htwice. reflexivity.
Defined.

Lemma nearest_layer_shows_witness :
  exists c : Canvas,
    draw scenarioA (Some blank) = Some c
    /\ pixel c 500 300 = Sampled landscape (layerRect scenarioA landscape 1).
Proof.
  apply (nearest_layer_shows scenarioA landscape blank 1 500 300);
    [ reflexivity | reflexivity | reflexivity | ].
  intros j Hj. destruct j as [|j]; [ reflexivity | ].
  apply Nat.succ_lt_mono in Hj. inversion Hj.
Defined.

Lemma untouched_pixel_is_background_witness :
  exists c : Canvas,
    draw scenarioA (Some blank) = Some c
    /\ pixel c 10 10 = Solid (bg scenarioA).
Proof.
  apply (untouched_pixel_is_background scenarioA landscape blank 10 10);
    [ reflexivity | split; split; vm_compute; congruence | ].
  intros j Hj. destruct j as [|[|[|j]]]; try reflexivity.
  change (layers scenarioA) with 3%Z in Hj. lia.
Defined.

Lemma surface_follows_state_witness :
  inSync (run session mount)
  /\ wellFormed (state (run session mount)).
Proof.
  apply (surface_follows_state session mount mount_inSync mount_wellFormed).
  repeat split. simpl. discriminate.
Defined.

Lemma upload_shows_new_image_witness :
  imgObj (state (onFile (Some goodFile) mount)) = Some landscape
  /\ imgURL (state (onFile (Some goodFile) mount)) = Some (url goodFile).
Proof.
  destruct (upload_shows_new_image mount goodFile 800 600
              (cleared initialState) eq_refl I eq_refl)
    as (Hobj & Hurl & _).
  split; [ exact Hobj | exact Hurl ].
Defined.

Lemma size_select_witness :
  In (size (state (onSizeChange "1920 × 1080 (HD)" mount))) SIZES.
Proof.
  apply (size_select "1920 × 1080 (HD)" mount).
  left. reflexivity.
Defined.

Lemma upload_revokes_previous_witness :
  objectURLs uploadedBrowser = [url goodFile]
  /\ objectURLs (chooseFile (Some secondFile) uploadedBrowser)
     = [url secondFile].
Proof.
  split; [ reflexivity | ].
  destruct (upload_revokes_previous uploadedBrowser secondFile (url goodFile))
    as (_ & _ & Honly);
    [ reflexivity | discriminate | discriminate | ].
  apply Honly; [ reflexivity | discriminate ].
Defined.

Lemma failed_upload_leaks_url_witness :
  In (url badFile)
     (objectURLs (chooseFiles [goodFile] (chooseFile (Some badFile) startBrowser))).
Proof.
  apply (failed_upload_leaks_url startBrowser badFile [goodFile]);
    [ reflexivity | discriminate | ].
  constructor; [ discriminate | constructor ].
Defined.

Lemma download_exports_state_witness :
  exists l : Link,
    handleDownload (Some "image/jpeg"%string) (canvasRef mount) = Some l
    /\ bitmap (href l) = rendered (state mount).
Proof.
  destruct (download_exports_state mount (Some "image/jpeg"%string)
              mount_inSync) as ((l & Hl & Hb & _) & _).
  exists l. split; [ exact Hl | exact Hb ].
Defined.
